(** * EpisodeProcessor (data-processor.js): a shallow embedding

    The offline corpus builder of the Advanced Therapist knowledge platform:
    markdown transcripts are parsed into episode records, themes and keywords
    are matched against fixed vocabularies, pairwise similarity is scored and
    the records are sorted into display order.

    Conventions of the embedding.
    - A JavaScript string is the list of its UTF-16 code units ([jsstring]);
      [length], [take] and list equality are then [.length], [.substring(0,n)]
      and [===].  Literals of the source are written as Rocq strings (UTF-8)
      and decoded once by [utf16].
    - JavaScript numbers that hold similarity scores are IEEE-754 binary64
      values: Rocq's primitive [float], with the same round-to-nearest-even
      [+], [*] and [/].
    - The numbers [parseInt] returns and the sort keys computed from them
      are binary64 values too: [parseInt] gives the double nearest to the
      integer it reads ([numberOfZ]), an infinity beyond the largest double
      and [NaN] without a digit, and the key is computed with the rounding
      [*], [+] and [-] of doubles.
    - JavaScript numbers that hold counts and rounded percentages are
      integers ([nat] or [Z]); they stay far below 2^53, where doubles
      represent integers exactly.
    - The directory of source documents is a list of (file name, content)
      pairs, in the order [readdirSync] returns them; the content is what
      [readFileSync] returns for the name.  A read that fails (a name that
      cannot be read as a file) has no representation here.
    - A thrown [TypeError] is the [Throw] case of [result]. *)

From Stdlib Require Import ZArith NArith Floats Uint63 String Ascii.
From stdpp Require Import base list gmap sorting.

(** The decimal literals 0.6, 0.4 and 0.3 of the source denote, here as in
    JavaScript, the nearest doubles. *)
#[global] Set Warnings "-inexact-float".

(** ** JavaScript strings *)

Module JS.

Definition jsstring : Type := list N.

(** UTF-8 bytes of a Rocq literal, decoded into UTF-16 code units. *)
Fixpoint utf16_of_bytes (bs : list N) : jsstring :=
  match bs with
  | [] => []
  | b0 :: r0 =>
      if (b0 <? 128)%N then b0 :: utf16_of_bytes r0
      else if (b0 <? 224)%N then
        match r0 with
        | b1 :: r1 => ((b0 - 192) * 64 + (b1 - 128))%N :: utf16_of_bytes r1
        | [] => []
        end
      else if (b0 <? 240)%N then
        match r0 with
        | b1 :: b2 :: r2 =>
            ((b0 - 224) * 4096 + (b1 - 128) * 64 + (b2 - 128))%N
              :: utf16_of_bytes r2
        | _ => []
        end
      else
        match r0 with
        | b1 :: b2 :: b3 :: r3 =>
            let cp := ((b0 - 240) * 262144 + (b1 - 128) * 4096
                       + (b2 - 128) * 64 + (b3 - 128))%N in
            let v := (cp - 65536)%N in
            (55296 + v / 1024)%N :: (56320 + v mod 1024)%N
              :: utf16_of_bytes r3
        | _ => []
        end
  end.

Definition utf16 (s : string) : jsstring :=
  utf16_of_bytes (map N_of_ascii (list_ascii_of_string s)).

(** [s.startsWith(p)] *)
Fixpoint startsWith (p s : jsstring) : bool :=
  match p, s with
  | [], _ => true
  | _ :: _, [] => false
  | a :: p', b :: s' => (a =? b)%N && startsWith p' s'
  end.

(** [s.includes(t)] *)
Fixpoint includes (t s : jsstring) : bool :=
  startsWith t s ||
  match s with
  | [] => false
  | _ :: s' => includes t s'
  end.

(** [s.endsWith(t)] *)
Definition endsWith (t s : jsstring) : bool :=
  (length t <=? length s) &&
  bool_decide (drop (length s - length t) s = t).

(** [s.split(sep)] for a one-unit separator: never the empty array. *)
Fixpoint split (sep : N) (s : jsstring) : list jsstring :=
  match s with
  | [] => [[]]
  | c :: s' =>
      if (c =? sep)%N then [] :: split sep s'
      else match split sep s' with
           | [] => [[c]]
           | w :: ws => (c :: w) :: ws
           end
  end.

(** [parts.join(sep)] *)
Fixpoint join (sep : jsstring) (parts : list jsstring) : jsstring :=
  match parts with
  | [] => []
  | [p] => p
  | p :: ps => p ++ sep ++ join sep ps
  end.

(** WhiteSpace and LineTerminator code units: what [trim] removes and what
    the regular-expression class [\s] matches. *)
Definition isWhiteSpace (c : N) : bool :=
  ((9 <=? c) && (c <=? 13) || (c =? 32) || (c =? 160) || (c =? 5760)
   || (8192 <=? c) && (c <=? 8202) || (c =? 8232) || (c =? 8233)
   || (c =? 8239) || (c =? 8287) || (c =? 12288) || (c =? 65279))%N.

Fixpoint trimStart (s : jsstring) : jsstring :=
  match s with
  | [] => []
  | c :: s' => if isWhiteSpace c then trimStart s' else s
  end.

Definition trimEnd (s : jsstring) : jsstring := rev (trimStart (rev s)).

Definition trim (s : jsstring) : jsstring := trimEnd (trimStart s).

(** [s.replace(/^p\s*/, '')]: a literal prefix and the white space after
    it are removed when the prefix is there. *)
Definition stripPrefixWs (p s : jsstring) : jsstring :=
  if startsWith p s then trimStart (drop (length p) s) else s.

(** [s.replace(/p\s*/, '')]: the first occurrence of the literal [p] and the
    white space after it are removed. *)
Fixpoint replaceFirstWs (p s : jsstring) : jsstring :=
  if startsWith p s then trimStart (drop (length p) s)
  else match s with
       | [] => []
       | c :: s' => c :: replaceFirstWs p s'
       end.

Definition isDigit (c : N) : bool := ((48 <=? c) && (c <=? 57))%N.

Definition isHexDigit (c : N) : bool :=
  (isDigit c || (97 <=? c) && (c <=? 102) || (65 <=? c) && (c <=? 70))%N.

(** The value of a digit: 0-9, a-f, A-F. *)
Definition digitValue (c : N) : Z :=
  if isDigit c then (Z.of_N c - 48)%Z
  else if (97 <=? c)%N then (Z.of_N c - 87)%Z
  else (Z.of_N c - 55)%Z.

(** The longest prefix of digits. *)
Fixpoint digitPrefix (isRadixDigit : N -> bool) (s : jsstring) : jsstring :=
  match s with
  | [] => []
  | c :: s' => if isRadixDigit c then c :: digitPrefix isRadixDigit s' else []
  end.

(** The value of a numeral, most significant digit first. *)
Definition numeralValue (radix : Z) (ds : jsstring) : Z :=
  foldl (fun acc c => (acc * radix + digitValue c)%Z) 0%Z ds.

(** The Number value of a mathematical integer: the nearest double, a tie
    going to the even mantissa, and an infinity beyond the largest
    double. *)
Definition SFofZ (z : Z) : spec_float := binary_normalize prec emax z 0 false.

Definition numberOfZ (z : Z) : float := SF2Prim (SFofZ z).

(** [parseInt(s)], no radix given: leading white space is skipped, a sign is
    read, "0x" or "0X" selects radix 16, and the longest prefix of digits is
    read as an integer, of which the result is the Number value (V8 rounds
    the exact integer, also beyond 20 digits); an integer 0 after a minus
    sign gives [-0], and no digit gives [NaN]. *)
Definition parseInt (s : jsstring) : float :=
  let s1 := trimStart s in
  let '(sign, s2) :=
    match s1 with
    | 45%N :: r => ((-1)%Z, r)
    | 43%N :: r => (1%Z, r)
    | _ => (1%Z, s1)
    end in
  let '(radix, isRadixDigit, s3) :=
    match s2 with
    | 48%N :: 120%N :: r | 48%N :: 88%N :: r => (16%Z, isHexDigit, r)
    | _ => (10%Z, isDigit, s2)
    end in
  match digitPrefix isRadixDigit s3 with
  | [] => PrimFloat.nan
  | ds =>
      let mathInt := numeralValue radix ds in
      if (mathInt =? 0)%Z then (if (sign =? -1)%Z then PrimFloat.neg_zero else PrimFloat.zero)
      else numberOfZ (sign * mathInt)
  end.

End JS.

Import JS.

(** ** [Set], [Array.prototype.sort] and numbers *)

(** A [Set] of strings: its elements in insertion order, without
    duplicates. *)
Module JSSet.

Definition t : Type := list jsstring.

Definition empty : t := [].

Definition has (s : t) (x : jsstring) : bool := bool_decide (x ∈ s).

Definition add (s : t) (x : jsstring) : t := if has s x then s else s ++ [x].

(** [new Set(array)] *)
Definition of_list (l : list jsstring) : t := foldl add empty l.

Definition size (s : t) : nat := length s.

(** [Array.from(set)] and [[...set]] *)
Definition to_list (s : t) : list jsstring := s.

End JSSet.

(** [SortCompare]: the comparator's result, with [NaN] read as [+0]. *)
Definition sortCompare {A} (comparefn : A -> A -> option Z) (x y : A) : Z :=
  default 0%Z (comparefn x y).

(** [array.sort(comparefn)].  The sort is stable (ECMAScript 2019), so for a
    consistent comparator its result is the one a stable insertion sort
    gives: an element moves behind exactly those it is strictly greater
    than. *)
Fixpoint sortInsert {A} (comparefn : A -> A -> option Z) (x : A) (l : list A)
  : list A :=
  match l with
  | [] => [x]
  | y :: l' =>
      if (0 <? sortCompare comparefn x y)%Z then y :: sortInsert comparefn x l'
      else x :: l
  end.

Definition Array_sort {A} (comparefn : A -> A -> option Z) (l : list A)
  : list A :=
  foldr (sortInsert comparefn) [] l.

(** [x < y] on strings: the order of the code units, a proper prefix coming
    first. *)
Fixpoint stringLt (x y : jsstring) : bool :=
  match x, y with
  | _, [] => false
  | [], _ :: _ => true
  | a :: x', b :: y' => (a <? b)%N || ((a =? b)%N && stringLt x' y')
  end.

(** The comparator of [array.sort()] without an argument, on strings. *)
Definition defaultCompare (x y : jsstring) : option Z :=
  if stringLt x y then Some (-1)%Z
  else if stringLt y x then Some 1%Z
  else Some 0%Z.

(** A count ([.length], [.size]) as a double. *)
Definition num (n : nat) : float := PrimFloat.of_uint63 (Uint63.of_Z (Z.of_nat n)).

(** [Math.round(x)] for a finite [x]: the integer nearest to [x], a tie going
    up, that is the floor of [x + 1/2] taken exactly on the mantissa and the
    exponent.  [Math.round] returns a zero, [NaN] and the infinities
    unchanged; the last three are no integers and are 0 here (a score is a
    sum of two bounded quotients, and [NaN] fails [>= threshold]). *)
Definition Math_round (x : float) : Z :=
  match Prim2SF x with
  | S754_finite s m e =>
      let v := if s then Z.neg m else Z.pos m in
      if (0 <=? e)%Z then (v * 2 ^ e)%Z
      else ((2 * v + 2 ^ (- e)) / 2 ^ (1 - e))%Z
  | _ => 0%Z
  end.

(** What [SortCompare] reads of the double a comparator returns: the sort
    tests the sign of the result only, and [NaN] is read as [+0]. *)
Definition numberSign (v : float) : option Z :=
  if (0 <? v)%float then Some 1%Z
  else if (v <? 0)%float then Some (-1)%Z
  else Some 0%Z.

(** ** Records *)

Module Related.
Record t : Type := mk {
  id : jsstring;
  title : jsstring;
  similarity : Z
}.
End Related.

(** The object [parseMarkdown] returns. *)
Module Parsed.
Record t : Type := mk {
  summary : jsstring;
  themes : list jsstring;
  keywords : list jsstring;
  sections : list jsstring;
  content : jsstring
}.
End Parsed.

(** An element of [this.episodes].  [relatedEpisodes] is absent until the
    second pass assigns it; an absent list is the empty list here. *)
Module Episode.
Record t : Type := mk {
  id : jsstring;
  filename : jsstring;
  title : jsstring;
  summary : jsstring;
  themes : list jsstring;
  keywords : list jsstring;
  sections : list jsstring;
  content : jsstring;
  relatedEpisodes : list Related.t
}.

Definition with_related (e : t) (r : list Related.t) : t :=
  mk (id e) (filename e) (title e) (summary e) (themes e) (keywords e)
     (sections e) (content e) r.
End Episode.

(** An element of the [episodes] array of the index: a record without its
    content. *)
Module IndexEntry.
Record t : Type := mk {
  id : jsstring;
  filename : jsstring;
  title : jsstring;
  summary : jsstring;
  themes : list jsstring;
  keywords : list jsstring;
  sections : list jsstring;
  relatedEpisodes : list Related.t
}.
End IndexEntry.

(** The object [generateIndex] returns. *)
Module Index.
Record t : Type := mk {
  generatedAt : jsstring;
  totalEpisodes : nat;
  episodes : list IndexEntry.t
}.
End Index.

(** A call either returns or throws. *)
Inductive error : Type := TypeError.

Inductive result (A : Type) : Type :=
  | Ok (a : A)
  | Throw (e : error).
Arguments Ok {A} a.
Arguments Throw {A} e.

#[global] Instance result_ret : MRet result := fun A a => Ok a.

#[global] Instance result_bind : MBind result := fun A B k r =>
  match r with
  | Ok a => k a
  | Throw e => Throw e
  end.

(** ** class EpisodeProcessor *)

Module EpisodeProcessor.

(** *** Literals of the source *)

Definition lit_newline : N := 10%N.
Definition lit_hyphen : N := 45%N.
Definition lit_space : jsstring := Eval vm_compute in utf16 " ".
Definition lit_dot_md : jsstring := Eval vm_compute in utf16 ".md".
Definition lit_README : jsstring := Eval vm_compute in utf16 "README.md".
Definition lit_h2 : jsstring := Eval vm_compute in utf16 "##".
Definition lit_h3 : jsstring := Eval vm_compute in utf16 "###".
Definition lit_gt : jsstring := Eval vm_compute in utf16 ">".
Definition lit_glyph : jsstring := Eval vm_compute in utf16 "◆".
Definition lit_zero : jsstring := Eval vm_compute in utf16 "0".
Definition lit_undefined : jsstring := Eval vm_compute in utf16 "undefined".
Definition lit_summary_header : jsstring := Eval vm_compute in utf16 "## サマリー".
Definition lit_summary : jsstring := Eval vm_compute in utf16 "サマリー".
Definition lit_extra : jsstring := Eval vm_compute in utf16 "番外編".
Definition lit_extra_hyphen : jsstring := Eval vm_compute in utf16 "番外編-".
Definition lit_extra_space : jsstring := Eval vm_compute in utf16 "番外編 ".
Definition lit_title0 : jsstring := Eval vm_compute in utf16 "番組の方向性".
Definition lit_episode_space : jsstring := Eval vm_compute in utf16 "エピソード ".

Definition themePatterns : list jsstring := Eval vm_compute in map utf16 [
  "働き方"; "キャリア"; "理学療法"; "歴史"; "メンタルヘルス";
  "精神医療"; "教育"; "研究"; "起業"; "ビジネス";
  "哲学"; "科学"; "エビデンス"; "評価"; "治療";
  "公衆衛生"; "地域包括ケア"; "高齢化"; "介護";
  "発達障害"; "認知症"; "うつ"; "ストレス";
  "スポーツ"; "リハビリテーション"; "身体"; "運動療法"
]%string.

Definition importantTerms : list jsstring := Eval vm_compute in map utf16 [
  "セラピスト"; "理学療法士"; "PT"; "OT"; "作業療法士";
  "患者"; "治療"; "評価"; "介入"; "リハビリ";
  "病院"; "施設"; "地域"; "在宅"; "訪問";
  "エビデンス"; "EBM"; "研究"; "論文"; "学術";
  "教育"; "養成"; "大学"; "協会"; "資格";
  "メンタル"; "精神"; "心理"; "ストレス"; "ウェルビーイング";
  "起業"; "独立"; "フリーランス"; "コンサル";
  "運動"; "身体"; "機能"; "動作"; "姿勢"
]%string.

(** *** extractEpisodeId *)

(** [\d+] *)
Definition isDigits (s : jsstring) : bool :=
  match s with
  | [] => false
  | _ => forallb isDigit s
  end.

(** [\d+(?:-\d+)?] *)
Definition matchesNumbered (s : jsstring) : bool :=
  match split lit_hyphen s with
  | [a] => isDigits a
  | [a; b] => isDigits a && isDigits b
  | _ => false
  end.

(** [番外編-\d+] *)
Definition matchesExtra (s : jsstring) : bool :=
  startsWith lit_extra_hyphen s && isDigits (drop (length lit_extra_hyphen) s).

(** [filename.match(/^(\d+(?:-\d+)?|番外編-\d+)\.md$/)]: the pattern is
    anchored at both ends, so group 1 is the name without its last three
    units; [null] is [None]. *)
Definition extractEpisodeId (filename : jsstring) : option jsstring :=
  if endsWith lit_dot_md filename then
    let stem := take (length filename - length lit_dot_md) filename in
    if matchesNumbered stem || matchesExtra stem then Some stem else None
  else None.

(** *** extractThemes, extractKeywords *)

Definition extractThemes (content : jsstring) : list jsstring :=
  let themes :=
    foldl (fun themes theme =>
             if includes theme content then themes ++ [theme] else themes)
          [] themePatterns in
  JSSet.to_list (JSSet.of_list themes).

(** The set is updated in place by the source; here the updated set is
    returned. *)
Definition extractKeywords (text : jsstring) (keywordSet : JSSet.t) : JSSet.t :=
  foldl (fun set term => if includes term text then JSSet.add set term else set)
        keywordSet importantTerms.

(** *** parseMarkdown *)

(** The variables the loop over the lines updates. *)
Record ParseState : Type := mkParseState {
  inSummary : bool;
  summaryLines : list jsstring;
  st_sections : list jsstring;
  st_keywords : JSSet.t
}.

(** One iteration of the loop, on [lines[i]]. *)
Definition parseLine (st : ParseState) (raw : jsstring) : ParseState :=
  let line := trim raw in
  if startsWith lit_summary_header line then
    (* inSummary = true; continue *)
    mkParseState true (summaryLines st) (st_sections st) (st_keywords st)
  else
    let '(inS, sumL) :=
      if inSummary st then
        if startsWith lit_h2 line || startsWith lit_h3 line
        then (false, summaryLines st)
        else if (0 <? length line)%nat then (true, summaryLines st ++ [line])
        else (true, summaryLines st)
      else (false, summaryLines st) in
    let secs :=
      if startsWith lit_h3 line
      then st_sections st ++ [replaceFirstWs lit_glyph (stripPrefixWs lit_h3 line)]
      else st_sections st in
    mkParseState inS sumL secs (extractKeywords line (st_keywords st)).

Definition parseLoop (lines : list jsstring) : ParseState :=
  foldl parseLine (mkParseState false [] [] JSSet.empty) lines.

Definition parseMarkdown (content filename : jsstring) : Parsed.t :=
  let lines := split lit_newline content in
  let st := parseLoop lines in
  let summary :=
    take 500 (stripPrefixWs lit_gt (join lit_space (summaryLines st))) in
  let themes := extractThemes content in
  Parsed.mk summary themes (JSSet.to_list (st_keywords st)) (st_sections st)
            content.

(** *** calculateSimilarity, findRelatedEpisodes *)

Definition calculateSimilarity (episode1 episode2 : Episode.t) : float :=
  let keywords1 := JSSet.of_list (Episode.keywords episode1) in
  let keywords2 := JSSet.of_list (Episode.keywords episode2) in
  let themes1 := JSSet.of_list (Episode.themes episode1) in
  let themes2 := JSSet.of_list (Episode.themes episode2) in
  let sharedKeywords :=
    length (filter (fun k => JSSet.has keywords2 k) (JSSet.to_list keywords1)) in
  let sharedThemes :=
    length (filter (fun t => JSSet.has themes2 t) (JSSet.to_list themes1)) in
  let totalKeywords := (JSSet.size keywords1 + JSSet.size keywords2)%nat in
  let totalThemes := (JSSet.size themes1 + JSSet.size themes2)%nat in
  let keywordScore :=
    if (0 <? totalKeywords)%nat
    then (num (sharedKeywords * 2) / num totalKeywords)%float else 0%float in
  let themeScore :=
    if (0 <? totalThemes)%nat
    then (num (sharedThemes * 2) / num totalThemes)%float else 0%float in
  (keywordScore * 0.6 + themeScore * 0.4)%float.

Definition defaultThreshold : float := 0.3%float.

(** The callback of [allEpisodes.forEach]: [related.push(...)] gives the
    longer array. *)
Definition relatedStep (currentEpisode : Episode.t) (threshold : float)
    (related : list Related.t) (episode : Episode.t) : list Related.t :=
  if negb (bool_decide (Episode.id episode = Episode.id currentEpisode))
  then
    let similarity := calculateSimilarity currentEpisode episode in
    if (threshold <=? similarity)%float
    then related ++ [Related.mk (Episode.id episode) (Episode.title episode)
                                (Math_round (similarity * 100)%float)]
    else related
  else related.

(** [(a, b) => b.similarity - a.similarity] *)
Definition bySimilarity (a b : Related.t) : option Z :=
  Some (Related.similarity b - Related.similarity a)%Z.

Definition findRelatedEpisodes (currentEpisode : Episode.t)
    (allEpisodes : list Episode.t) (threshold : float) : list Related.t :=
  let related := foldl (relatedStep currentEpisode threshold) [] allEpisodes in
  take 5 (Array_sort bySimilarity related).

(** *** generateTitle *)

(** The test of the loop over the lines of the content. *)
Definition isTitleLine (line : jsstring) : bool :=
  startsWith lit_h2 line && negb (includes lit_summary line).

(** [id === '0'] is false for [null], and [null.startsWith] throws. *)
Definition generateTitle (filename content : jsstring) : result jsstring :=
  let id := extractEpisodeId filename in
  if bool_decide (id = Some lit_zero) then Ok lit_title0
  else
    match id with
    | None => Throw TypeError
    | Some id =>
        if startsWith lit_extra id
        then Ok (lit_extra_space
                   ++ default lit_undefined (split lit_hyphen id !! 1%nat))
        else
          let lines := split lit_newline content in
          match List.find isTitleLine lines with
          | Some line => Ok (trim (stripPrefixWs lit_h2 line))
          | None => Ok (lit_episode_space ++ id)
          end
    end.

(** *** processAllFiles *)

(** A directory entry: the file's name and the content [readFileSync]
    returns for it.  Every entry of the model can be read: a name whose
    read fails (a subdirectory called 2.md) is outside the model, and so is
    the rejection of the build such a read causes. *)
Definition entry : Type := jsstring * jsstring.

(** [fs.readdirSync(sourceDir).filter(...)] *)
Definition listFiles (dir : list entry) : list entry :=
  filter (fun f : entry =>
            endsWith lit_dot_md f.1 && negb (bool_decide (f.1 = lit_README)))
         dir.

(** The body of the first loop; [Ok episodes] unchanged is [continue]
    ([!episodeId] holds of [null] and of the empty string). *)
Definition firstPassStep (episodes : list Episode.t) (f : entry)
  : result (list Episode.t) :=
  match extractEpisodeId f.1 with
  | None | Some [] => Ok episodes
  | Some episodeId =>
      let parsed := parseMarkdown f.2 f.1 in
      title ← generateTitle f.1 f.2;
      Ok (episodes ++
            [Episode.mk episodeId f.1 title
               (Parsed.summary parsed) (Parsed.themes parsed)
               (Parsed.keywords parsed) (Parsed.sections parsed)
               (Parsed.content parsed) []])
  end.

Fixpoint firstPass (files : list entry) (episodes : list Episode.t)
  : result (list Episode.t) :=
  match files with
  | [] => Ok episodes
  | f :: rest => episodes' ← firstPassStep episodes f; firstPass rest episodes'
  end.

(** The second loop assigns [relatedEpisodes] to the records one by one, in
    place: the record at index [i] is compared with the array as it is
    then. *)
Definition secondPassStep (episodes : list Episode.t) (i : nat)
  : list Episode.t :=
  match episodes !! i with
  | Some episode =>
      <[i := Episode.with_related episode
               (findRelatedEpisodes episode episodes defaultThreshold)]> episodes
  | None => episodes
  end.

Definition secondPass (episodes : list Episode.t) : list Episode.t :=
  foldl secondPassStep episodes (seq 0 (length episodes)).

(** [parseInt(x)] of an array element that may be [undefined]:
    [parseInt(undefined)] reads the string "undefined" and is [NaN]. *)
Definition parseIntAt (parts : list jsstring) (i : nat) : float :=
  match parts !! i with
  | Some s => parseInt s
  | None => PrimFloat.nan
  end.

(** The key of the final sort, a double: [parts[1]] is truthy when it is a
    string that is not empty. *)
Definition getOrder (id : jsstring) : float :=
  if bool_decide (id = lit_zero) then 0%float
  else if startsWith lit_extra id
  then (1000 + parseIntAt (split lit_hyphen id) 1)%float
  else
    let parts := split lit_hyphen id in
    (parseIntAt parts 0 * 10
     + match parts !! 1%nat with
       | Some (_ :: _) => parseIntAt parts 1
       | _ => 0
       end)%float.

(** The comparator of the final sort, [getOrder(a.id) - getOrder(b.id)], as
    the sort reads it. *)
Definition compareEpisodes (a b : Episode.t) : option Z :=
  numberSign (getOrder (Episode.id a) - getOrder (Episode.id b))%float.

Definition processAllFiles (dir : list entry) : result (list Episode.t) :=
  let files := listFiles dir in
  episodes ← firstPass files [];
  let episodes := secondPass episodes in
  Ok (Array_sort compareEpisodes episodes).

(** *** generateIndex, getAllThemes *)

(** [this.episodes] is the argument [episodes], and
    [new Date().toISOString()] the argument [now]. *)
Definition generateIndex (episodes : list Episode.t) (now : jsstring)
  : Index.t :=
  Index.mk now (length episodes)
    (map (fun ep =>
            IndexEntry.mk (Episode.id ep) (Episode.filename ep)
              (Episode.title ep) (Episode.summary ep) (Episode.themes ep)
              (Episode.keywords ep) (Episode.sections ep)
              (Episode.relatedEpisodes ep))
         episodes).

Definition getAllThemes (episodes : list Episode.t) : list jsstring :=
  let allThemes :=
    foldl (fun set ep => foldl JSSet.add set (Episode.themes ep))
          JSSet.empty episodes in
  Array_sort defaultCompare (JSSet.to_list allThemes).

End EpisodeProcessor.


(** ** Specification-side definitions

    What the specification says of titles, scores, vocabularies, summaries
    and the display order, in its own terms, and the views of the build the
    proofs go through. *)

Module Spec.
Import EpisodeProcessor.

(** *** Titles *)

(** The title of an accepted id: the constant for "0"; the label and the
    digits after the hyphen for an extra episode; else the first line that
    begins with the two marks "##" and does not contain the Summary token,
    without these two marks and trimmed; else the label with the id. *)
Definition titleOf (id content : jsstring) : jsstring :=
  if bool_decide (id = lit_zero) then lit_title0
  else if startsWith lit_extra_hyphen id
  then lit_extra_space ++ drop (length lit_extra_hyphen) id
  else
    match List.find isTitleLine (split lit_newline content) with
    | Some line => trim (drop (length lit_h2) line)
    | None => lit_episode_space ++ id
    end.

(** A level-2 heading line begins with "##" and not with "###"; the Summary
    header is the line the parser opens the summary on. *)
Definition isLevel2Heading (line : jsstring) : bool :=
  startsWith lit_h2 line && negb (startsWith lit_h3 line).

Definition isSummaryHeader (line : jsstring) : bool :=
  startsWith lit_summary_header line.

(** The third rule of the title as the specification words it: the first
    level-2 heading that is not the Summary header. *)
Definition titleClaimed (id content : jsstring) : jsstring :=
  if bool_decide (id = lit_zero) then lit_title0
  else if startsWith lit_extra_hyphen id
  then lit_extra_space ++ drop (length lit_extra_hyphen) id
  else
    match List.find (fun line => isLevel2Heading line && negb (isSummaryHeader line))
                    (split lit_newline content) with
    | Some line => trim (drop (length lit_h2) line)
    | None => lit_episode_space ++ id
    end.

(** *** The stages of the build *)

(** The record of an accepted document after the first pass. *)
Definition recordOf (f : entry) (id : jsstring) : Episode.t :=
  let parsed := parseMarkdown f.2 f.1 in
  Episode.mk id f.1 (titleOf id f.2)
    (Parsed.summary parsed) (Parsed.themes parsed) (Parsed.keywords parsed)
    (Parsed.sections parsed) (Parsed.content parsed) [].

(** Loading and per-episode extraction: the accepted documents, in directory
    order. *)
Definition extracted (dir : list entry) : list Episode.t :=
  omap (fun f => recordOf f <$> extractEpisodeId f.1) dir.

(** Cross-episode relatedness of one record against the whole corpus. *)
Definition relate (all : list Episode.t) (e : Episode.t) : Episode.t :=
  Episode.with_related e (findRelatedEpisodes e all defaultThreshold).

(** What [findRelatedEpisodes] reads of a record: two records with the
    same id, title, keywords and themes are the same to it. *)
Definition sameCore (a b : Episode.t) : Prop :=
  Episode.id a = Episode.id b /\ Episode.title a = Episode.title b /\
  Episode.keywords a = Episode.keywords b /\ Episode.themes a = Episode.themes b.

(** The entry another episode contributes to the related list of
    [current], if any: it has another id and scores at least the
    threshold. *)
Definition candidate (current : Episode.t) (threshold : float)
    (episode : Episode.t) : option Related.t :=
  if bool_decide (Episode.id episode = Episode.id current) then None
  else if (threshold <=? calculateSimilarity current episode)%float
  then Some (Related.mk (Episode.id episode) (Episode.title episode)
               (Math_round (calculateSimilarity current episode * 100)%float))
  else None.

(** An episode that enters the related list of [current] with the
    percentage [k]. *)
Definition qualifies (current : Episode.t) (threshold : float) (k : Z)
    (episode : Episode.t) : Prop :=
  Episode.id episode <> Episode.id current
  /\ (threshold <=? calculateSimilarity current episode)%float = true
  /\ Math_round (calculateSimilarity current episode * 100)%float = k.

#[global] Instance qualifies_dec current threshold k episode :
  Decision (qualifies current threshold k episode).
Proof. unfold qualifies. apply _. Defined.

(** An id whose sort key is the double [k], and a file name that resolves
    to such an id. *)
Definition hasKey (k : float) (id : jsstring) : bool :=
  PrimFloat.Leibniz.eqb (getOrder id) k.

Definition fileHasKey (k : float) (filename : jsstring) : bool :=
  match extractEpisodeId filename with
  | Some id => hasKey k id
  | None => false
  end.

(** *** Similarity *)

(** Twice the shared elements over the sum of the sizes, 0 when the sum
    is 0 (the Dice coefficient of two sets), as a double. *)
Definition dice (X Y : gset jsstring) : float :=
  if (0 <? size X + size Y)%nat
  then (num (2 * size (X ∩ Y)) / num (size X + size Y))%float
  else 0%float.

Definition keywordSet (e : Episode.t) : gset jsstring :=
  list_to_set (Episode.keywords e).

Definition themeSet (e : Episode.t) : gset jsstring :=
  list_to_set (Episode.themes e).

(** The keyword score weighted 0.6 plus the theme score weighted 0.4. *)
Definition score (a b : Episode.t) : float :=
  (dice (keywordSet a) (keywordSet b) * 0.6
   + dice (themeSet a) (themeSet b) * 0.4)%float.

(** *** The scores of vocabulary-bounded records *)

(** [dice] from the number of shared elements and the sum of the sizes. *)
Definition diceN (shared total : nat) : float :=
  if (0 <? total)%nat then (num (2 * shared) / num total)%float else 0%float.

(** The values [dice] takes on two subsets of a vocabulary of [n] terms. *)
Definition diceValues (n : nat) : list float :=
  total ← seq 0 (S (2 * n)); shared ← seq 0 (S (total / 2)); [diceN shared total].

(** A score below the threshold, or one whose hundredfold lies from 29.5
    up to, but excluding, 100.5. *)
Definition percentOk (x : float) : bool :=
  if (defaultThreshold <=? x)%float
  then (29.5 <=? x * 100)%float && (x * 100 <? 100.5)%float
  else true.

Definition tableOk (nk nt : nat) : bool :=
  forallb (fun k => forallb (fun t => percentOk (k * 0.6 + t * 0.4)%float)
                            (diceValues nt))
          (diceValues nk).

(** [Math.round] on the mantissa and the exponent of a positive double. *)
Definition roundPos (m : positive) (e : Z) : Z :=
  if (0 <=? e)%Z then (Z.pos m * 2 ^ e)%Z
  else ((2 * Z.pos m + 2 ^ (- e)) / 2 ^ (1 - e))%Z.

(** Records whose keywords and themes come from the vocabularies. *)
Definition inVocabulary (e : Episode.t) : Prop :=
  keywordSet e ⊆ list_to_set importantTerms /\
  themeSet e ⊆ list_to_set themePatterns.

(** A property of every score two records can have whose keywords come from
    a vocabulary of [nk] terms and whose themes from one of [nt] terms. *)
Definition scoreTable (P : float -> bool) (nk nt : nat) : bool :=
  forallb (fun k => forallb (fun t => P (k * 0.6 + t * 0.4)%float)
                            (diceValues nt))
          (diceValues nk).

(** A score from 0 to 1. *)
Definition unitScore (x : float) : bool := ((0 <=? x) && (x <=? 1))%float.

(** The scores of two records that share no keyword and no theme, by the
    sums of their set sizes, are below the threshold. *)
Definition disjointBelow (nk nt : nat) : bool :=
  forallb (fun tk =>
             forallb (fun tt =>
                        negb (defaultThreshold
                              <=? diceN 0 tk * 0.6 + diceN 0 tt * 0.4)%float)
                     (seq 0 (S (2 * nt))))
          (seq 0 (S (2 * nk))).

(** The scores of two records with the same [k] keywords and the same [t]
    themes, none of the two sets empty, are 1. *)
Definition identicalOne (nk nt : nat) : bool :=
  forallb (fun k =>
             forallb (fun t =>
                        PrimFloat.Leibniz.eqb
                          (diceN (S k) (S k + S k) * 0.6
                           + diceN (S t) (S t + S t) * 0.4)%float 1%float)
                     (seq 0 nt))
          (seq 0 nk).

(** *** Vocabularies *)

(** [match(text, vocabulary)]: the terms of the vocabulary that occur in
    the text, as a set. *)
Definition matchVocabulary (text : jsstring) (vocabulary : list jsstring)
  : gset jsstring :=
  list_to_set (filter (fun term => includes term text) vocabulary).

(** A term that is not empty and has no white space (so no line break). *)
Definition plainTerm (t : jsstring) : bool :=
  match t with
  | [] => false
  | _ => forallb (fun c => negb (isWhiteSpace c)) t
  end.

(** *** Summary *)







(** *** The sort key *)

(** The integer a string of decimal digits denotes. *)
Definition digitsValue (ds : jsstring) : Z :=
  foldl (fun acc c => (acc * 10 + (Z.of_N c - 48))%Z) 0%Z ds.

(** The three forms of an id: an integer, an integer with a hyphen and a
    second integer, and the extra form with its integer. *)
Inductive IdShape : Type :=
  | Plain (n : jsstring)
  | Sub (n m : jsstring)
  | Extra (m : jsstring).

Definition wellFormed (sh : IdShape) : Prop :=
  match sh with
  | Plain n => isDigits n = true
  | Sub n m => isDigits n = true /\ isDigits m = true
  | Extra m => isDigits m = true
  end.

Definition render (sh : IdShape) : jsstring :=
  match sh with
  | Plain n => n
  | Sub n m => n ++ lit_hyphen :: m
  | Extra m => lit_extra_hyphen ++ m
  end.

(** Integer part times 10 plus the suffix (0 when absent); 1000 plus the
    suffix for the extra form.  The id "0" has the key 0 by the first rule. *)
Definition orderKey (sh : IdShape) : Z :=
  match sh with
  | Plain n => digitsValue n * 10 + 0
  | Sub n m => digitsValue n * 10 + digitsValue m
  | Extra m => 1000 + digitsValue m
  end.

(** The number of binary digits, the mantissa and the exponent of the
    double of a positive integer below 2^53, and that double with a sign. *)
Definition bits (z : Z) : Z := (Z.log2 z + 1)%Z.
Definition mantissaOf (z : Z) : Z := (z * 2 ^ (53 - bits z))%Z.
Definition exponentOf (z : Z) : Z := (bits z - 53)%Z.

Definition canonical (s : bool) (z : Z) : spec_float :=
  S754_finite s (Z.to_pos (mantissaOf z)) (exponentOf z).

(** The key as the specification words it, on an id, in exact integers: 0
    for "0"; 1000 plus the integer after the extra prefix; else the integer
    part times 10 plus the integer after the hyphen, 0 when there is
    none. *)
Definition exactKey (id : jsstring) : Z :=
  if bool_decide (id = lit_zero) then 0
  else if startsWith lit_extra_hyphen id
  then 1000 + digitsValue (drop (length lit_extra_hyphen) id)
  else
    match split lit_hyphen id with
    | n :: m :: _ => digitsValue n * 10 + digitsValue m
    | [n] => digitsValue n * 10 + 0
    | [] => 0
    end.

(** The keys of the names a directory has accepted are safe integers, that
    is below 2^53: the doubles of the code then hold them exactly. *)
Definition safeKeys (dir : list entry) : Prop :=
  Forall (fun f : entry =>
            match extractEpisodeId f.1 with
            | Some id => (exactKey id < 2 ^ 53)%Z
            | None => True
            end) dir.

(** The comparator of the final sort, on ids. *)
Definition compareIds (a b : jsstring) : option Z :=
  numberSign (getOrder a - getOrder b)%float.

(** Two records in the order of the exact key. *)
Definition keyLe (a b : Episode.t) : Prop :=
  (exactKey (Episode.id a) <= exactKey (Episode.id b))%Z.

(** Every extra-episode record comes after every numbered record. *)
Definition extrasLast (eps : list Episode.t) : Prop :=
  forall i j ex en,
    eps !! i = Some ex -> eps !! j = Some en ->
    matchesExtra (Episode.id ex) = true ->
    matchesNumbered (Episode.id en) = true ->
    (j < i)%nat.

(** *** The id pattern *)

(** A file name matches the id pattern: digits, digits-hyphen-digits or the
    extra form, and then the markdown extension. *)
Definition matchesIdPattern (filename : jsstring) : Prop :=
  exists stem, filename = stem ++ lit_dot_md /\
    (isDigits stem = true
     \/ (exists n m, stem = n ++ lit_hyphen :: m
                     /\ isDigits n = true /\ isDigits m = true)
     \/ (exists m, stem = lit_extra_hyphen ++ m /\ isDigits m = true)).

End Spec.

(** ** Concrete inputs *)

Module Examples.
Import EpisodeProcessor.

Definition kw_PT : jsstring := Eval vm_compute in utf16 "PT".
Definition kw_research : jsstring := Eval vm_compute in utf16 "研究".
Definition th_education : jsstring := Eval vm_compute in utf16 "教育".
Definition th_science : jsstring := Eval vm_compute in utf16 "科学".

(** The two episodes of the similarity example; only their keywords and
    themes matter. *)
Definition episode_A : Episode.t :=
  Episode.mk (utf16 "1") (utf16 "1.md") [] [] [th_education]
    [kw_PT; kw_research] [] [] [].
Definition episode_B : Episode.t :=
  Episode.mk (utf16 "2") (utf16 "2.md") [] [] [th_education; th_science]
    [kw_PT] [] [] [].

Definition file_1 : jsstring := Eval vm_compute in utf16 "1.md".
Definition file_2 : jsstring := Eval vm_compute in utf16 "2.md".
Definition file_notes : jsstring := Eval vm_compute in utf16 "notes.txt".

Definition kw_therapist : jsstring := Eval vm_compute in utf16 "理学療法士".
Definition th_therapy : jsstring := Eval vm_compute in utf16 "理学療法".

(** A document whose Summary header line carries a keyword. *)
Definition content_header_keyword : jsstring :=
  Eval vm_compute in utf16 "## サマリー 理学療法士".

(** A level-3 heading before the first level-2 heading. *)
Definition content_h3_first : jsstring := Eval vm_compute in utf16 "### A
## B".

(** A Summary section, a heading and a section. *)
Definition content_plain : jsstring := Eval vm_compute in utf16 "## サマリー
> PT 研究 教育

続き
## 本編 理学療法士
### ◆ はじめに".

(** A numbered episode beyond 99 and an extra episode. *)
Definition dir_beyond_99 : list entry := Eval vm_compute in [
  (utf16 "101.md", utf16 "PT");
  (utf16 "番外編-1.md", utf16 "PT")
].

(** Two ids beyond 2^53: the integers 9007199254740993 and
    9007199254740992, of which the doubles are the same. *)
Definition dir_beyond_safe : list entry := Eval vm_compute in [
  (utf16 "900719925474099-03.md", utf16 "PT");
  (utf16 "900719925474099-2.md", utf16 "PT")
].

(** The ids of the sort example, as given and as expected. *)
Definition ids_given : list jsstring := Eval vm_compute in
  map utf16 ["0"; "1"; "2-1"; "2"; "番外編-1"]%string.
Definition ids_sorted : list jsstring := Eval vm_compute in
  map utf16 ["0"; "1"; "2"; "2-1"; "番外編-1"]%string.

(** A small directory: five episodes in the order of the sort example, the
    README and a file that is no markdown. *)
Definition dir_small : list entry := Eval vm_compute in [
  (utf16 "0.md", utf16 "PT");
  (utf16 "1.md", content_plain);
  (utf16 "2-1.md", utf16 "PT 研究 教育 科学");
  (utf16 "2.md", utf16 "PT 教育");
  (utf16 "番外編-1.md", utf16 "## サマリー
PT 研究");
  (utf16 "README.md", utf16 "PT");
  (utf16 "notes.txt", utf16 "PT")
].

(** Two names with the same sort key, 3 * 10 + 0 and 2 * 10 + 10, and one
    before them. *)
Definition dir_ties : list entry := Eval vm_compute in [
  (utf16 "3.md", utf16 "PT");
  (utf16 "2-10.md", utf16 "OT");
  (utf16 "1.md", utf16 "EBM")
].

(** Two documents with the same keywords and themes. *)
Definition dir_twins : list entry := Eval vm_compute in [
  (utf16 "3.md", utf16 "PT 教育");
  (utf16 "4.md", utf16 "教育
PT")
].

Definition built_twins : list Episode.t := Eval vm_compute in
  match processAllFiles dir_twins with
  | Ok episodes => episodes
  | Throw _ => []
  end.

(** What the build returns on [dir_small]. *)
Definition built_small : list Episode.t := Eval vm_compute in
  match processAllFiles dir_small with
  | Ok episodes => episodes
  | Throw _ => []
  end.

End Examples.

(** * Verification *)

Import EpisodeProcessor Spec.

Section StringFacts.
Implicit Types (s t p : jsstring) (c : N).

Lemma startsWith_prefix p s : startsWith p s = true <-> exists r, s = p ++ r.
Proof.
  revert s; induction p as [|a p IH]; intros s; simpl.
  - split; eauto.
  - destruct s as [|b s]; simpl.
    + split; [done | intros [r Hr]; done].
    + rewrite andb_true_iff, N.eqb_eq, IH. split.
      * intros [-> [r ->]]; eauto.
      * intros [r Hr]; simplify_eq; eauto.
Qed.

Lemma startsWith_app p r : startsWith p (p ++ r) = true.
Proof. apply startsWith_prefix; eauto. Qed.

Lemma includes_infix t s :
  includes t s = true <-> exists l r, s = l ++ t ++ r.
Proof.
  induction s as [|c s IH]; simpl.
  - rewrite orb_false_r, startsWith_prefix. split.
    + intros [r Hr]. exists [], r. done.
    + intros (l & r & H). symmetry in H.
      apply app_eq_nil in H as [-> H]. exists r. done.
  - rewrite orb_true_iff, startsWith_prefix, IH. split.
    + intros [[r Hr] | (l & r & ->)].
      * exists [], r. done.
      * exists (c :: l), r. done.
    + intros (l & r & H). destruct l as [|c' l]; simpl in H.
      * left; eauto.
      * right. simplify_eq. eauto.
Qed.

Lemma endsWith_suffix t s :
  endsWith t s = true <-> s = take (length s - length t) s ++ t.
Proof.
  unfold endsWith. rewrite andb_true_iff, Nat.leb_le, bool_decide_eq_true.
  split.
  - intros [_ H].
    transitivity (take (length s - length t) s ++ drop (length s - length t) s);
      [by rewrite take_drop | by rewrite H].
  - intros H. assert (Hl : length t <= length s).
    { rewrite H, length_app. lia. }
    split; [done|].
    apply (f_equal (drop (length s - length t))) in H.
    rewrite drop_app_length' in H by (rewrite length_take; lia). done.
Qed.

End StringFacts.

(** ** Facts on [extractEpisodeId] *)

Lemma extractEpisodeId_Some filename id :
  extractEpisodeId filename = Some id ->
  filename = id ++ lit_dot_md /\ (matchesNumbered id || matchesExtra id) = true.
Proof.
  unfold extractEpisodeId.
  destruct (endsWith lit_dot_md filename) eqn:He; [|done].
  apply endsWith_suffix in He.
  destruct (_ || _) eqn:Hm; [|done].
  intros [= <-]. done.
Qed.

Lemma extractEpisodeId_stem id :
  (matchesNumbered id || matchesExtra id) = true ->
  extractEpisodeId (id ++ lit_dot_md) = Some id.
Proof.
  intros Hm. unfold extractEpisodeId.
  assert (Ht : take (length (id ++ lit_dot_md) - length lit_dot_md)
                 (id ++ lit_dot_md) = id).
  { rewrite length_app, Nat.add_sub. by rewrite take_app_length. }
  assert (He : endsWith lit_dot_md (id ++ lit_dot_md) = true).
  { apply endsWith_suffix. by rewrite Ht. }
  rewrite He, Ht, Hm. done.
Qed.

Lemma isDigits_nonempty s : isDigits s = true -> s <> [].
Proof. by destruct s. Qed.

Lemma split_cons_first sep s : exists w ws, split sep s = w :: ws.
Proof.
  induction s as [|c s (w & ws & IH)]; simpl; [eauto|].
  destruct (c =? sep)%N; [eauto|]. rewrite IH. eauto.
Qed.

Lemma split_nil_inv sep s : split sep s = [[]] -> s = [].
Proof.
  destruct s as [|c s]; [done|]. simpl.
  destruct (c =? sep)%N.
  - destruct (split_cons_first sep s) as (w & ws & ->). done.
  - destruct (split sep s); done.
Qed.

Lemma extractEpisodeId_nonempty filename id :
  extractEpisodeId filename = Some id -> id <> [].
Proof.
  intros [_ Hm]%extractEpisodeId_Some ->. done.
Qed.

(** ** [Array_sort] *)

Section ArraySort.
Context {A : Type} (comparefn : A -> A -> option Z).

Lemma sortInsert_perm x l : sortInsert comparefn x l ≡ₚ x :: l.
Proof.
  induction l as [|y l IH]; simpl; [done|].
  destruct (0 <? _)%Z; [|done].
  rewrite IH. apply Permutation_swap.
Qed.

Lemma Array_sort_perm l : Array_sort comparefn l ≡ₚ l.
Proof.
  induction l as [|x l IH]; simpl; [done|].
  unfold Array_sort in *. simpl. rewrite sortInsert_perm. by f_equiv.
Qed.

Lemma Array_sort_elem_of l x : x ∈ Array_sort comparefn l <-> x ∈ l.
Proof. by rewrite Array_sort_perm. Qed.

Lemma Array_sort_length l : length (Array_sort comparefn l) = length l.
Proof. by rewrite Array_sort_perm. Qed.

(** When the comparator is positive exactly where an integer key on the
    elements of the array decreases, the result is in non-decreasing key
    order. *)
Section Keyed.
Context (key : A -> Z).
Let le_key (a b : A) : Prop := (key a <= key b)%Z.

Lemma sortInsert_sorted_by x l :
  (forall y, y ∈ l ->
     (0 <? sortCompare comparefn x y)%Z = (key y <? key x)%Z) ->
  StronglySorted le_key l ->
  StronglySorted le_key (sortInsert comparefn x l).
Proof.
  intros Hc Hs. induction Hs as [|y l Hs IH Hy]; cbn [sortInsert].
  - repeat constructor.
  - rewrite (Hc y) by left.
    destruct (key y <? key x)%Z eqn:Hlt.
    + apply Z.ltb_lt in Hlt. constructor.
      * apply IH. intros z Hz. apply Hc. by right.
      * apply Forall_forall. intros z Hz.
        apply (elem_of_Permutation_proper _ _ _ (sortInsert_perm x l)) in Hz.
        apply elem_of_cons in Hz as [->|Hz].
        -- unfold le_key. lia.
        -- by eapply Forall_forall in Hy.
    + apply Z.ltb_ge in Hlt. constructor.
      * by constructor.
      * constructor; [unfold le_key; lia|].
        eapply Forall_impl; [exact Hy|]. unfold le_key. intros; lia.
Qed.

Lemma Array_sort_sorted_by l :
  (forall x y, x ∈ l -> y ∈ l ->
     (0 <? sortCompare comparefn x y)%Z = (key y <? key x)%Z) ->
  StronglySorted le_key (Array_sort comparefn l).
Proof.
  induction l as [|x l IH]; intros Hc; unfold Array_sort; simpl.
  - constructor.
  - apply sortInsert_sorted_by.
    + intros y Hy. apply Hc; [left|right]. by apply Array_sort_elem_of.
    + apply IH. intros a b Ha Hb. apply Hc; by right.
Qed.

(** In particular when the comparator is the difference of the keys. *)
Lemma Array_sort_sorted l :
  (forall x y, x ∈ l -> y ∈ l -> comparefn x y = Some (key x - key y)%Z) ->
  StronglySorted le_key (Array_sort comparefn l).
Proof.
  intros Hc. apply Array_sort_sorted_by. intros x y Hx Hy.
  unfold sortCompare. rewrite (Hc x y Hx Hy).
  change (default 0%Z (Some (key x - key y)%Z)) with (key x - key y)%Z.
  destruct (Z.ltb_spec 0 (key x - key y)), (Z.ltb_spec (key y) (key x)); lia.
Qed.

End Keyed.
End ArraySort.

(** The sort commutes with a projection the comparator factors through. *)
Section ArraySortMap.
Context {A B : Type} (f : A -> B) (cmpA : A -> A -> option Z)
  (cmpB : B -> B -> option Z).
Hypothesis cmp_f : forall x y, cmpA x y = cmpB (f x) (f y).

Lemma sortInsert_map x s :
  f <$> sortInsert cmpA x s = sortInsert cmpB (f x) (f <$> s).
Proof.
  induction s as [|y s IHs]; [done|].
  cbn [sortInsert fmap list_fmap]. unfold sortCompare. rewrite cmp_f.
  destruct (0 <? _)%Z; [|done].
  cbn [fmap list_fmap]. f_equal. apply IHs.
Qed.

Lemma Array_sort_map l :
  f <$> Array_sort cmpA l = Array_sort cmpB (f <$> l).
Proof.
  induction l as [|x l IH]; [done|].
  change (f <$> sortInsert cmpA x (Array_sort cmpA l)
          = sortInsert cmpB (f x) (Array_sort cmpB (f <$> l))).
  by rewrite sortInsert_map, IH.
Qed.

End ArraySortMap.

(** ** [split] *)

Lemma split_no_sep sep s : sep ∉ s -> split sep s = [s].
Proof.
  induction s as [|c s IH]; [done|].
  intros Hn. apply not_elem_of_cons in Hn as [Hc Hs]. simpl.
  destruct (N.eqb_spec c sep) as [->|_]; [done|].
  by rewrite IH.
Qed.

Lemma split_app_sep sep a b :
  sep ∉ a -> split sep (a ++ sep :: b) = a :: split sep b.
Proof.
  induction a as [|c a IH]; intros Hn; simpl.
  - by rewrite N.eqb_refl.
  - apply not_elem_of_cons in Hn as [Hc Ha].
    destruct (N.eqb_spec c sep) as [->|_]; [done|].
    by rewrite IH.
Qed.

Lemma split_inv sep s :
  (exists a, split sep s = [a] /\ s = a /\ (sep ∉ a)) \/
  (exists a b, s = a ++ sep :: b /\ (sep ∉ a) /\ split sep s = a :: split sep b).
Proof.
  induction s as [|c s IH]; simpl.
  - left. exists []. split_and!; [done..|]. apply not_elem_of_nil.
  - destruct (N.eqb_spec c sep) as [->|Hc].
    + right. exists [], s. split_and!; [done| apply not_elem_of_nil |done].
    + destruct IH as [(a & -> & -> & Ha) | (a & b & -> & Ha & ->)].
      * left. exists (c :: a). split_and!; [done..|].
        by apply not_elem_of_cons.
      * right. exists (c :: a), b. split_and!; [done| |done].
        by apply not_elem_of_cons.
Qed.

Lemma isDigits_spec s :
  isDigits s = true <-> s <> [] /\ Forall (fun c => isDigit c = true) s.
Proof.
  destruct s as [|c s]; [split; [done | by intros [? _]]|].
  unfold isDigits. rewrite forallb_forall, Forall_forall.
  split.
  - intros H. split; [done|]. intros x Hx. apply H. by apply list_elem_of_In.
  - intros [_ H] x Hx. apply H. by apply list_elem_of_In.
Qed.

Lemma isDigits_no_hyphen s : isDigits s = true -> lit_hyphen ∉ s.
Proof.
  intros [_ H]%isDigits_spec Hin.
  by eapply Forall_forall in H; [|exact Hin].
Qed.

(** The three forms of an id. *)
Lemma matches_shapes id :
  (matchesNumbered id || matchesExtra id) = true <->
  (isDigits id = true) \/
  (exists n m, id = n ++ lit_hyphen :: m /\ isDigits n = true /\ isDigits m = true) \/
  (exists m, id = lit_extra_hyphen ++ m /\ isDigits m = true).
Proof.
  rewrite orb_true_iff. unfold matchesNumbered, matchesExtra. split.
  - intros [H|H].
    + destruct (split_inv lit_hyphen id) as [(a & Hs & -> & Ha) | (a & b & -> & Ha & Hs)].
      * rewrite Hs in H. by left.
      * rewrite Hs in H.
        destruct (split_inv lit_hyphen b) as [(b' & Hs' & -> & Hb) | (a' & b' & -> & Ha' & Hs')].
        -- rewrite Hs' in H. apply andb_true_iff in H as [??].
           right; left. eauto.
        -- rewrite Hs' in H.
           destruct (split_cons_first lit_hyphen b') as (w & ws & Hw).
           rewrite Hw in H. done.
    + apply andb_true_iff in H as [[r ->]%startsWith_prefix H].
      rewrite drop_app_length in H. right; right; eauto.
  - intros [H | [(n & m & -> & Hn & Hm) | (m & -> & Hm)]].
    + left. by rewrite split_no_sep by by apply isDigits_no_hyphen.
    + left. rewrite split_app_sep by by apply isDigits_no_hyphen.
      rewrite split_no_sep by by apply isDigits_no_hyphen.
      by rewrite Hn, Hm.
    + right. by rewrite startsWith_app, drop_app_length.
Qed.

Lemma isDigits_not_extra s r : isDigits (s ++ r) = true -> startsWith lit_extra (s ++ r) = false.
Proof.
  intros [Hne H]%isDigits_spec.
  destruct (s ++ r) as [|c l] eqn:E; [done|].
  apply Forall_cons in H as [Hc _].
  cbn [lit_extra startsWith].
  destruct (N.eqb_spec 30058 c) as [<-|]; [|done].
  by vm_compute in Hc.
Qed.

(** ** [trim] *)

Lemma trimStart_idemp s : trimStart (trimStart s) = trimStart s.
Proof.
  induction s as [|c s IH]; [done|]. simpl.
  destruct (isWhiteSpace c) eqn:E; [done|]. simpl. by rewrite E.
Qed.

Lemma trim_trimStart s : trim (trimStart s) = trim s.
Proof. unfold trim. by rewrite trimStart_idemp. Qed.

(** ** [generateTitle] *)

Lemma extra_split m :
  isDigits m = true ->
  split lit_hyphen (lit_extra_hyphen ++ m) !! 1%nat = Some m.
Proof.
  intros Hm.
  change (lit_extra_hyphen ++ m) with (lit_extra ++ lit_hyphen :: m).
  rewrite split_app_sep.
  - by rewrite split_no_sep by by apply isDigits_no_hyphen.
  - apply (bool_decide_unpack _). by vm_compute.
Qed.

Lemma accepted_startsWith_extra id :
  (matchesNumbered id || matchesExtra id) = true ->
  startsWith lit_extra id = startsWith lit_extra_hyphen id.
Proof.
  intros [H | [(n & m & -> & Hn & Hm) | (m & -> & Hm)]]%matches_shapes.
  - rewrite <- (app_nil_r id) in H |- *.
    rewrite (isDigits_not_extra _ _ H). symmetry.
    apply not_true_is_false. intros [r Hr]%startsWith_prefix.
    pose proof (isDigits_not_extra id [] H) as Hn.
    rewrite Hr in Hn. by vm_compute in Hn.
  - destruct n as [|c n]; [done|].
    apply isDigits_spec in Hn as [_ [Hc _]%Forall_cons].
    cbn [lit_extra lit_extra_hyphen startsWith app].
    destruct (N.eqb_spec 30058 c) as [<-|]; [|done].
    by vm_compute in Hc.
  - rewrite startsWith_app.
    change (lit_extra_hyphen ++ m) with (lit_extra ++ lit_hyphen :: m).
    by rewrite startsWith_app.
Qed.

Lemma generateTitle_accepted filename content id :
  extractEpisodeId filename = Some id ->
  generateTitle filename content = Ok (Spec.titleOf id content).
Proof.
  intros Hid. unfold generateTitle, Spec.titleOf. rewrite Hid.
  apply extractEpisodeId_Some in Hid as [_ Hm].
  destruct (decide (id = lit_zero)) as [->|Hz].
  - by rewrite !bool_decide_eq_true_2.
  - rewrite !bool_decide_eq_false_2 by congruence.
    rewrite (accepted_startsWith_extra _ Hm).
    destruct (startsWith lit_extra_hyphen id) eqn:Hx.
    + apply startsWith_prefix in Hx as [m ->].
      assert (isDigits m = true) as Hd.
      { apply matches_shapes in Hm as [H | [(n & m' & E & Hn & _) | (m' & E & Hm')]].
        - apply isDigits_spec in H as [_ [Hc _]%Forall_cons]. by vm_compute in Hc.
        - destruct n as [|c n]; [done|].
          apply isDigits_spec in Hn as [_ [Hc _]%Forall_cons].
          injection E as <- _. by vm_compute in Hc.
        - by apply app_inv_head in E as ->. }
      rewrite (extra_split _ Hd), drop_app_length. done.
    + destruct (find isTitleLine _) as [line|] eqn:Hf; [|done].
      apply find_some in Hf as [_ [Hh _]%andb_true_iff].
      unfold stripPrefixWs. rewrite Hh, trim_trimStart. done.
Qed.

Lemma generateTitle_null filename content :
  extractEpisodeId filename = None ->
  generateTitle filename content = Throw TypeError.
Proof. intros H. unfold generateTitle. by rewrite H. Qed.

(** ** The two passes *)

Lemma firstPassStep_spec episodes f :
  firstPassStep episodes f
  = Ok (episodes ++ option_list (Spec.recordOf f <$> extractEpisodeId f.1)).
Proof.
  unfold firstPassStep.
  destruct (extractEpisodeId f.1) as [id|] eqn:Hid.
  - rewrite (generateTitle_accepted _ _ _ Hid).
    destruct id as [|c id]; [by apply extractEpisodeId_nonempty in Hid|].
    reflexivity.
  - cbn [fmap option_fmap option_map option_list]. by rewrite app_nil_r.
Qed.

Lemma extracted_cons f files :
  Spec.extracted (f :: files)
  = option_list (Spec.recordOf f <$> extractEpisodeId f.1) ++ Spec.extracted files.
Proof.
  unfold Spec.extracted. cbn [omap list_omap].
  by destruct (extractEpisodeId f.1).
Qed.

Lemma firstPass_spec files episodes :
  firstPass files episodes = Ok (episodes ++ Spec.extracted files).
Proof.
  revert episodes. induction files as [|f files IH]; intros episodes.
  - cbn [firstPass]. unfold Spec.extracted. cbn [omap list_omap].
    by rewrite app_nil_r.
  - cbn [firstPass]. rewrite firstPassStep_spec.
    change (firstPass files
              (episodes ++ option_list (Spec.recordOf f <$> extractEpisodeId f.1))
            = Ok (episodes ++ Spec.extracted (f :: files))).
    by rewrite IH, extracted_cons, app_assoc.
Qed.

Lemma accepted_is_listed name id :
  extractEpisodeId name = Some id ->
  endsWith lit_dot_md name && negb (bool_decide (name = lit_README)) = true.
Proof.
  intros Hid. apply andb_true_iff. split.
  - unfold extractEpisodeId in Hid. by destruct (endsWith lit_dot_md name).
  - apply negb_true_iff, bool_decide_eq_false. intros ->.
    by vm_compute in Hid.
Qed.

Lemma listFiles_cons f dir :
  listFiles (f :: dir)
  = if endsWith lit_dot_md f.1 && negb (bool_decide (f.1 = lit_README))
    then f :: listFiles dir else listFiles dir.
Proof.
  unfold listFiles. rewrite filter_cons.
  destruct (endsWith lit_dot_md f.1 && _); by destruct (decide _).
Qed.

Lemma extracted_listFiles dir :
  Spec.extracted (listFiles dir) = Spec.extracted dir.
Proof.
  induction dir as [|f dir IH]; [done|].
  rewrite listFiles_cons, (extracted_cons f dir).
  destruct (extractEpisodeId f.1) as [id|] eqn:Hid.
  - rewrite (accepted_is_listed _ _ Hid), extracted_cons, Hid, IH. done.
  - destruct (_ && _); [rewrite extracted_cons, Hid|]; by rewrite IH.
Qed.


Lemma calculateSimilarity_core a a' b b' :
  sameCore a a' -> sameCore b b' ->
  calculateSimilarity a b = calculateSimilarity a' b'.
Proof.
  intros (_ & _ & Hk & Ht) (_ & _ & Hk' & Ht').
  unfold calculateSimilarity. by rewrite Hk, Ht, Hk', Ht'.
Qed.

Lemma findRelatedEpisodes_core a a' l l' th :
  sameCore a a' -> Forall2 sameCore l l' ->
  findRelatedEpisodes a l th = findRelatedEpisodes a' l' th.
Proof.
  intros Ha Hl. unfold findRelatedEpisodes. do 2 f_equal.
  generalize (@nil Related.t) as acc.
  induction Hl as [|b b' l l' Hb Hl IH]; intros acc; [done|].
  cbn [foldl]. rewrite <- IH. f_equal.
  unfold relatedStep.
  rewrite (calculateSimilarity_core a a' b b' Ha Hb).
  destruct Ha as (-> & _), Hb as (-> & -> & _). done.
Qed.

Lemma secondPass_spec episodes :
  secondPass episodes = Spec.relate episodes <$> episodes.
Proof.
  unfold secondPass.
  assert (Hinv : forall m k, (k + m = length episodes)%nat ->
    foldl secondPassStep
      ((Spec.relate episodes <$> take k episodes) ++ drop k episodes) (seq k m)
    = Spec.relate episodes <$> episodes).
  { induction m as [|m IH]; intros k Hk.
    - cbn [seq foldl]. rewrite take_ge, drop_ge by lia. by rewrite app_nil_r.
    - cbn [seq foldl]. rewrite <- (IH (S k)) by lia. f_equal.
      destruct (lookup_lt_is_Some_2 episodes k) as [e He]; [lia|].
      unfold secondPassStep.
      assert (Hlen : length (Spec.relate episodes <$> take k episodes) = k).
      { rewrite length_fmap, length_take. lia. }
      rewrite lookup_app_r by lia. rewrite Hlen, Nat.sub_diag.
      rewrite lookup_drop, Nat.add_0_r, He.
      rewrite (take_S_r _ _ _ He), fmap_app, <- app_assoc.
      rewrite (drop_S _ _ _ He).
      replace k with (length (Spec.relate episodes <$> take k episodes) + 0)%nat
        at 1 by lia.
      rewrite insert_app_r. unfold insert. cbn [list_insert fmap list_fmap app].
      do 2 f_equal. unfold Spec.relate at 2. f_equal.
      apply findRelatedEpisodes_core; [done|].
      rewrite <- (drop_S _ _ _ He).
      assert (Hsplit : Forall2 sameCore
                ((Spec.relate episodes <$> take k episodes) ++ drop k episodes)
                (take k episodes ++ drop k episodes)); [|by rewrite take_drop in Hsplit].
      apply Forall2_app.
      + apply Forall2_fmap_l, Forall_Forall2_diag, Forall_forall.
        intros x _. done.
      + apply Forall_Forall2_diag, Forall_forall.
        intros x _. done. }
  apply (Hinv (length episodes) 0%nat). lia.
Qed.

Theorem processAllFiles_spec dir :
  processAllFiles dir
  = Ok (Array_sort compareEpisodes
          (Spec.relate (Spec.extracted dir) <$> Spec.extracted dir)).
Proof.
  unfold processAllFiles. rewrite firstPass_spec, extracted_listFiles.
  cbn [mbind result_bind app]. by rewrite secondPass_spec.
Qed.

(** ** The related list *)

Lemma relatedStep_candidate current th related episode :
  relatedStep current th related episode
  = related ++ option_list (Spec.candidate current th episode).
Proof.
  unfold relatedStep, Spec.candidate.
  destruct (bool_decide _); cbn [negb]; [by rewrite app_nil_r|].
  destruct (th <=? _)%float; [done | by rewrite app_nil_r].
Qed.

Lemma related_fold current th related all :
  foldl (relatedStep current th) related all
  = related ++ omap (Spec.candidate current th) all.
Proof.
  revert related. induction all as [|ep all IH]; intros related.
  - by rewrite app_nil_r.
  - cbn [foldl omap list_omap]. rewrite IH, relatedStep_candidate, <- app_assoc.
    by destruct (Spec.candidate current th ep).
Qed.

Lemma findRelatedEpisodes_spec current all th :
  findRelatedEpisodes current all th
  = take 5 (Array_sort bySimilarity (omap (Spec.candidate current th) all)).
Proof. unfold findRelatedEpisodes. by rewrite related_fold. Qed.

Lemma findRelatedEpisodes_elem current all th r :
  r ∈ findRelatedEpisodes current all th ->
  exists episode, episode ∈ all /\ Spec.candidate current th episode = Some r.
Proof.
  rewrite findRelatedEpisodes_spec. intros Hr%subseteq_take.
  apply Array_sort_elem_of in Hr. by apply list_elem_of_omap in Hr.
Qed.

Lemma candidate_Some current th episode r :
  Spec.candidate current th episode = Some r ->
  Episode.id episode <> Episode.id current /\
  (th <=? calculateSimilarity current episode)%float = true /\
  r = Related.mk (Episode.id episode) (Episode.title episode)
        (Math_round (calculateSimilarity current episode * 100)%float).
Proof.
  unfold Spec.candidate. case_bool_decide; [done|].
  destruct (th <=? _)%float; [|done]. by intros [= <-].
Qed.

(** ** The records of the built corpus *)

Lemma extracted_elem dir e :
  e ∈ Spec.extracted dir <->
  exists f id, f ∈ dir /\ extractEpisodeId f.1 = Some id /\ e = Spec.recordOf f id.
Proof.
  unfold Spec.extracted. rewrite list_elem_of_omap. split.
  - intros (f & Hf & He). destruct (extractEpisodeId f.1) as [id|] eqn:Hid; [|done].
    injection He as <-. eauto.
  - intros (f & id & Hf & Hid & ->). exists f. by rewrite Hid.
Qed.

Lemma built_elem dir eps e :
  processAllFiles dir = Ok eps -> e ∈ eps ->
  exists e0, e0 ∈ Spec.extracted dir /\ e = Spec.relate (Spec.extracted dir) e0.
Proof.
  rewrite processAllFiles_spec. intros [= <-] He.
  apply Array_sort_elem_of, list_elem_of_fmap in He as (e0 & -> & He0). eauto.
Qed.

Lemma built_total dir : exists eps, processAllFiles dir = Ok eps.
Proof. rewrite processAllFiles_spec. eauto. Qed.

Lemma extracted_ids dir :
  Episode.id <$> Spec.extracted dir = omap extractEpisodeId dir.*1.
Proof.
  induction dir as [|f dir IH]; [done|].
  rewrite extracted_cons, fmap_app, IH. cbn [fmap list_fmap omap list_omap].
  by destruct (extractEpisodeId f.1).
Qed.

Lemma built_ids dir eps :
  processAllFiles dir = Ok eps ->
  Episode.id <$> eps ≡ₚ omap extractEpisodeId dir.*1.
Proof.
  rewrite processAllFiles_spec. intros [= <-].
  rewrite Array_sort_perm, <- list_fmap_compose, <- extracted_ids. done.
Qed.

Lemma extractEpisodeId_inj f1 f2 id :
  extractEpisodeId f1 = Some id -> extractEpisodeId f2 = Some id -> f1 = f2.
Proof.
  intros [-> _]%extractEpisodeId_Some [-> _]%extractEpisodeId_Some. done.
Qed.

Lemma NoDup_accepted_ids names :
  NoDup names -> NoDup (omap extractEpisodeId names).
Proof.
  induction 1 as [|f names Hf Hn IH]; cbn [omap list_omap]; [constructor|].
  destruct (extractEpisodeId f) as [id|] eqn:Hid; [|done].
  constructor; [|done].
  intros (f' & Hf' & Hid')%list_elem_of_omap.
  by rewrite (extractEpisodeId_inj _ _ _ Hid Hid') in Hf.
Qed.

Lemma matchesIdPattern_spec name :
  Spec.matchesIdPattern name <-> is_Some (extractEpisodeId name).
Proof.
  split.
  - intros (stem & -> & H). exists stem.
    by apply extractEpisodeId_stem, matches_shapes.
  - intros [id [-> H%matches_shapes]%extractEpisodeId_Some]. by exists id.
Qed.

(** ** C4: titles *)

(** C4: [generateTitle] misses the claim where a heading of level 3 comes
    before the first heading of level 2.  For the file 1.md with the content
    "### A", "## B" the claim gives the title "B", the first level-2 heading
    without its marker; the code takes the line "### A", which begins with
    "##" too, and removes two marks only, so the title is "# A", with a
    mark left in it.  [parseMarkdown] removes the three marks of such a line
    for its sections, and the comment of the loop says the title is
    extracted from the first heading. *)
Theorem title_keeps_heading_mark :
  extractEpisodeId Examples.file_1 = Some (utf16 "1") /\
  generateTitle Examples.file_1 Examples.content_h3_first = Ok (utf16 "# A") /\
  Spec.titleClaimed (utf16 "1") Examples.content_h3_first = utf16 "B" /\
  Parsed.sections (parseMarkdown Examples.content_h3_first Examples.file_1)
  = [utf16 "A"] /\
  generateTitle Examples.file_1 Examples.content_h3_first
  <> Ok (Spec.titleClaimed (utf16 "1") Examples.content_h3_first).
Proof. vm_compute. split_and!; [done..|]. discriminate. Qed.

Lemma find_ext_in {A} (P Q : A -> bool) (l : list A) :
  Forall (fun x => P x = Q x) l -> List.find P l = List.find Q l.
Proof.
  induction 1 as [|x l Hx _ IH]; [done|]. cbn [List.find]. by rewrite Hx, IH.
Qed.

(** Where no line begins with three marks, and the lines that begin with
    two marks contain the Summary token only as Summary headers,
    [generateTitle] returns the title of the claim, for every accepted file
    name and every content. *)
Lemma generateTitle_claimed filename content id :
  extractEpisodeId filename = Some id ->
  Forall (fun line =>
            startsWith lit_h3 line = false
            /\ (startsWith lit_h2 line = true ->
                includes lit_summary line = Spec.isSummaryHeader line))
         (split lit_newline content) ->
  generateTitle filename content = Ok (Spec.titleClaimed id content).
Proof.
  intros Hid Hlines. rewrite (generateTitle_accepted _ _ _ Hid). f_equal.
  unfold Spec.titleOf, Spec.titleClaimed.
  rewrite (find_ext_in isTitleLine
             (fun line => Spec.isLevel2Heading line
                          && negb (Spec.isSummaryHeader line))
             (split lit_newline content)); [done|].
  eapply Forall_impl; [exact Hlines|]. intros line [H3 H2].
  unfold isTitleLine, Spec.isLevel2Heading. rewrite H3.
  destruct (startsWith lit_h2 line); [|done].
  cbn [andb negb]. by rewrite H2.
Qed.

(** ** C6: no self-relation *)

(** C6: in the built corpus no record lists its own id among its related
    episodes. *)
Theorem no_self_relation dir eps e :
  processAllFiles dir = Ok eps -> e ∈ eps ->
  Episode.id e ∉ Related.id <$> Episode.relatedEpisodes e.
Proof.
  intros Hb He. destruct (built_elem _ _ _ Hb He) as (e0 & _ & ->).
  cbn [Spec.relate Episode.with_related Episode.id Episode.relatedEpisodes].
  intros (r & Hid & Hr)%list_elem_of_fmap.
  apply findRelatedEpisodes_elem in Hr as (ep & _ & Hc).
  apply candidate_Some in Hc as (Hne & _ & ->). by apply Hne.
Qed.

(** ** C8: id uniqueness *)

(** C8: two different file names the id pattern accepts resolve to different
    ids; hence, the names of a directory being pairwise different, the ids of
    the built corpus are pairwise different. *)
Theorem id_uniqueness dir eps :
  NoDup dir.*1 -> processAllFiles dir = Ok eps ->
  (forall f1 f2 i1 i2, f1 <> f2 ->
     extractEpisodeId f1 = Some i1 -> extractEpisodeId f2 = Some i2 -> i1 <> i2)
  /\ NoDup (Episode.id <$> eps).
Proof.
  intros Hn Hb. split.
  - intros f1 f2 i1 i2 Hne H1 H2 ->. apply Hne. by eapply extractEpisodeId_inj.
  - rewrite (built_ids _ _ Hb). by apply NoDup_accepted_ids.
Qed.

(** ** C9: files outside the id pattern *)

(** C9: a file whose name does not match the id pattern is silently
    excluded: the build with it returns (no error) what the build without it
    returns, and no record of the result has its name; README.md and
    notes.txt are such names. *)
Theorem unmatched_file_excluded dir1 f dir2 :
  ~ Spec.matchesIdPattern f.1 ->
  processAllFiles (dir1 ++ f :: dir2) = processAllFiles (dir1 ++ dir2)
  /\ (exists eps, processAllFiles (dir1 ++ f :: dir2) = Ok eps
                 /\ f.1 ∉ Episode.filename <$> eps)
  /\ ~ Spec.matchesIdPattern lit_README
  /\ ~ Spec.matchesIdPattern Examples.file_notes.
Proof.
  intros Hf.
  assert (Hnone : extractEpisodeId f.1 = None).
  { apply eq_None_not_Some. by rewrite <- matchesIdPattern_spec. }
  assert (Hex : Spec.extracted (dir1 ++ f :: dir2) = Spec.extracted (dir1 ++ dir2)).
  { unfold Spec.extracted. rewrite !omap_app. cbn [omap list_omap].
    by rewrite Hnone. }
  split_and!.
  - by rewrite !processAllFiles_spec, Hex.
  - destruct (built_total (dir1 ++ f :: dir2)) as [eps Hb]. exists eps.
    split; [done|]. intros (e & Hname & He)%list_elem_of_fmap.
    destruct (built_elem _ _ _ Hb He) as (e0 & He0 & ->).
    apply extracted_elem in He0 as (f' & id & _ & Hid & ->).
    cbn in Hname. congruence.
  - rewrite matchesIdPattern_spec. by vm_compute; intros [? ?].
  - rewrite matchesIdPattern_spec. by vm_compute; intros [? ?].
Qed.

(** ** C10: the null id in [generateTitle] *)

(** C10: [generateTitle] throws exactly when [extractEpisodeId] yields no id
    for the file name; [processAllFiles] skips such a file before it calls
    [generateTitle], and never throws. *)
Theorem generateTitle_null_guarded :
  (forall filename content,
     generateTitle filename content = Throw TypeError
     <-> extractEpisodeId filename = None)
  /\ (forall episodes f,
        extractEpisodeId f.1 = None -> firstPassStep episodes f = Ok episodes)
  /\ (forall dir, exists eps, processAllFiles dir = Ok eps).
Proof.
  split_and!.
  - intros filename content. split.
    + destruct (extractEpisodeId filename) as [id|] eqn:Hid; [|done].
      by rewrite (generateTitle_accepted _ _ _ Hid).
    + apply generateTitle_null.
  - intros episodes f Hid. unfold firstPassStep. by rewrite Hid.
  - apply built_total.
Qed.

(** ** [JSSet] against finite sets *)

Section JSSetFacts.
Implicit Types (s : JSSet.t) (l : list jsstring) (x : jsstring).

Lemma JSSet_add_elem s x y : y ∈ JSSet.add s x <-> y ∈ s \/ y = x.
Proof.
  unfold JSSet.add, JSSet.has. case_bool_decide as Hx.
  - split; [by left|]. by intros [H| ->].
  - rewrite elem_of_app, list_elem_of_singleton. done.
Qed.

Lemma JSSet_add_NoDup s x : NoDup s -> NoDup (JSSet.add s x).
Proof.
  intros Hs. unfold JSSet.add, JSSet.has. case_bool_decide; [done|].
  apply NoDup_app. split_and!; [done| |apply NoDup_singleton].
  intros y Hy ->%list_elem_of_singleton. done.
Qed.

Lemma JSSet_fold_elem l s y : y ∈ foldl JSSet.add s l <-> y ∈ s \/ y ∈ l.
Proof.
  revert s. induction l as [|x l IH]; intros s; cbn [foldl].
  - rewrite elem_of_nil. tauto.
  - rewrite IH, JSSet_add_elem, elem_of_cons. tauto.
Qed.

Lemma JSSet_fold_NoDup l s : NoDup s -> NoDup (foldl JSSet.add s l).
Proof.
  revert s. induction l as [|x l IH]; intros s Hs; cbn [foldl]; [done|].
  by apply IH, JSSet_add_NoDup.
Qed.

Lemma JSSet_of_list_elem l y : y ∈ JSSet.of_list l <-> y ∈ l.
Proof.
  unfold JSSet.of_list. rewrite JSSet_fold_elem.
  unfold JSSet.empty. rewrite elem_of_nil. tauto.
Qed.

Lemma JSSet_of_list_NoDup l : NoDup (JSSet.of_list l).
Proof. apply JSSet_fold_NoDup, NoDup_nil_2. Qed.

Lemma JSSet_of_list_to_set l :
  list_to_set (C := gset jsstring) (JSSet.of_list l) = list_to_set l.
Proof.
  apply set_eq. intros y. by rewrite !elem_of_list_to_set, JSSet_of_list_elem.
Qed.

Lemma JSSet_size l :
  JSSet.size (JSSet.of_list l) = size (list_to_set (C := gset jsstring) l).
Proof.
  unfold JSSet.size. rewrite <- JSSet_of_list_to_set.
  symmetry. apply size_list_to_set, JSSet_of_list_NoDup.
Qed.

Lemma JSSet_shared l1 l2 :
  length (filter (fun k => JSSet.has (JSSet.of_list l2) k)
                 (JSSet.to_list (JSSet.of_list l1)))
  = size (list_to_set (C := gset jsstring) l1 ∩ list_to_set l2).
Proof.
  unfold JSSet.to_list.
  rewrite <- (size_list_to_set (C := gset jsstring))
    by apply NoDup_filter, JSSet_of_list_NoDup.
  f_equal. apply set_eq. intros y.
  rewrite elem_of_list_to_set, list_elem_of_filter, elem_of_intersection.
  rewrite !elem_of_list_to_set, JSSet_of_list_elem.
  unfold JSSet.has. rewrite bool_decide_spec, JSSet_of_list_elem. tauto.
Qed.

End JSSetFacts.

Lemma calculateSimilarity_score a b : calculateSimilarity a b = Spec.score a b.
Proof.
  unfold calculateSimilarity, Spec.score, Spec.dice, Spec.keywordSet, Spec.themeSet.
  rewrite !JSSet_size, !JSSet_shared.
  by rewrite !(Nat.mul_comm _ 2).
Qed.

(** ** [Math_round] between two doubles *)

Lemma div_between a b lo hi :
  (0 < b)%Z -> (b * lo <= a)%Z -> (a < b * (hi + 1))%Z -> (lo <= a / b <= hi)%Z.
Proof.
  intros Hb Hlo Hhi. split.
  - by apply Z.div_le_lower_bound.
  - by apply Z.lt_succ_r, Z.div_lt_upper_bound.
Qed.

Lemma digits2_pos_bounds m :
  (2 ^ (Z.pos (digits2_pos m) - 1) <= Z.pos m < 2 ^ Z.pos (digits2_pos m))%Z.
Proof.
  induction m as [m IH|m IH|]; cbn [digits2_pos].
  - rewrite Pos2Z.inj_succ, Z.pow_succ_r by lia.
    replace (Z.succ (Z.pos (digits2_pos m)) - 1)%Z
      with (Z.succ (Z.pos (digits2_pos m) - 1)) by lia.
    rewrite Z.pow_succ_r by lia. lia.
  - rewrite Pos2Z.inj_succ, Z.pow_succ_r by lia.
    replace (Z.succ (Z.pos (digits2_pos m)) - 1)%Z
      with (Z.succ (Z.pos (digits2_pos m) - 1)) by lia.
    rewrite Z.pow_succ_r by lia. lia.
  - done.
Qed.

(** A finite double above the subnormal range has a mantissa of 53 bits. *)
Lemma valid_mantissa s m e :
  SpecFloat.valid_binary prec emax (S754_finite s m e) = true ->
  (-1074 < e)%Z -> (2 ^ 52 <= Z.pos m < 2 ^ 53)%Z.
Proof.
  cbn [SpecFloat.valid_binary]. unfold bounded, canonical_mantissa, fexp.
  intros [Hc _]%andb_true_iff He. apply Z.eqb_eq in Hc.
  change (SpecFloat.emin prec emax) with (-1074)%Z in Hc.
  change prec with 53%Z in Hc.
  assert (Z.pos (digits2_pos m) = 53%Z) as Hd by lia.
  pose proof (digits2_pos_bounds m) as Hb. rewrite Hd in Hb. exact Hb.
Qed.

(** A double [y] with 29.5 <= y < 100.5 rounds to an integer from 30
    to 100. *)
Lemma Prim2SF_29_5 : Prim2SF 29.5 = S754_finite false 8303511812964352 (-48).
Proof. vm_compute. reflexivity. Qed.

Lemma Prim2SF_100_5 : Prim2SF 100.5 = S754_finite false 7072058789855232 (-46).
Proof. vm_compute. reflexivity. Qed.

Lemma roundPos_48 m : roundPos m (-48) = ((2 * Z.pos m + 281474976710656) / 562949953421312)%Z.
Proof. reflexivity. Qed.
Lemma roundPos_47 m : roundPos m (-47) = ((2 * Z.pos m + 140737488355328) / 281474976710656)%Z.
Proof. reflexivity. Qed.
Lemma roundPos_46 m : roundPos m (-46) = ((2 * Z.pos m + 70368744177664) / 140737488355328)%Z.
Proof. reflexivity. Qed.

Lemma pow2_52 : (2 ^ 52 = 4503599627370496)%Z. Proof. reflexivity. Qed.
Lemma pow2_53 : (2 ^ 53 = 9007199254740992)%Z. Proof. reflexivity. Qed.

Lemma SFleb_pos m0 e0 m e :
  SFleb (S754_finite false m0 e0) (S754_finite false m e) = true ->
  (e0 < e)%Z \/ (e0 = e /\ (Z.pos m0 <= Z.pos m)%Z).
Proof.
  unfold SFleb. cbn [SFcompare].
  change (PosDef.Pos.compare_cont Eq) with Pos.compare.
  destruct (Z.compare_spec e0 e) as [->|H|H]; [|by left|discriminate].
  destruct (Pos.compare_spec m0 m) as [->|E|E]; try discriminate; intros _; right.
  - split; [reflexivity | apply Z.le_refl].
  - split; [reflexivity | apply Z.lt_le_incl, E].
Qed.

Lemma SFltb_pos m0 e0 m e :
  SFltb (S754_finite false m0 e0) (S754_finite false m e) = true ->
  (e0 < e)%Z \/ (e0 = e /\ (Z.pos m0 < Z.pos m)%Z).
Proof.
  unfold SFltb. cbn [SFcompare].
  change (PosDef.Pos.compare_cont Eq) with Pos.compare.
  destruct (Z.compare_spec e0 e) as [->|H|H]; [|by left|discriminate].
  destruct (Pos.compare_spec m0 m) as [->|E|E]; try discriminate; intros _; right.
  split; [reflexivity | exact E].
Qed.

Lemma roundPos_percent m e :
  SpecFloat.valid_binary prec emax (S754_finite false m e) = true ->
  SFleb (S754_finite false 8303511812964352 (-48)) (S754_finite false m e) = true ->
  SFltb (S754_finite false m e) (S754_finite false 7072058789855232 (-46)) = true ->
  (30 <= roundPos m e <= 100)%Z.
Proof.
  intros Hv Hlo%SFleb_pos Hhi%SFltb_pos.
  pose proof (valid_mantissa _ _ _ Hv ltac:(lia)) as Hm.
  rewrite pow2_52, pow2_53 in Hm. clear Hv.
  assert (e = -48 \/ e = -47 \/ e = -46)%Z as [->|[->| ->]] by lia.
  - rewrite roundPos_48. apply div_between; lia.
  - rewrite roundPos_47. apply div_between; lia.
  - rewrite roundPos_46. apply div_between; lia.
Qed.

Lemma Math_round_percent y :
  (29.5 <=? y)%float = true -> (y <? 100.5)%float = true ->
  (30 <= Math_round y <= 100)%Z.
Proof.
  rewrite FloatAxioms.leb_spec, FloatAxioms.ltb_spec, Prim2SF_29_5, Prim2SF_100_5.
  pose proof (Prim2SF_valid y) as Hv. unfold Math_round.
  destruct (Prim2SF y) as [[]|[]| |[] m e]; try discriminate.
  apply (roundPos_percent m e Hv).
Qed.

(** ** The score table *)

Lemma tableOk_vocabulary :
  tableOk (length importantTerms) (length themePatterns) = true.
Proof. vm_compute. reflexivity. Qed.

Lemma percentOk_table nk nt k t :
  tableOk nk nt = true -> k ∈ diceValues nk -> t ∈ diceValues nt ->
  percentOk (k * 0.6 + t * 0.4)%float = true.
Proof.
  unfold tableOk. rewrite forallb_forall. intros H Hk Ht.
  apply list_elem_of_In, H in Hk. rewrite forallb_forall in Hk.
  by apply Hk, list_elem_of_In.
Qed.

Lemma diceN_value n shared total :
  (2 * shared <= total)%nat -> (total <= 2 * n)%nat ->
  diceN shared total ∈ diceValues n.
Proof.
  intros Hs Ht. unfold diceValues.
  apply list_elem_of_bind. exists total. split.
  - apply list_elem_of_bind. exists shared. split; [apply list_elem_of_singleton; done|].
    apply elem_of_seq. split; [lia|].
    pose proof (Nat.div_le_lower_bound total 2 shared ltac:(lia) Hs). lia.
  - apply elem_of_seq. lia.
Qed.

Lemma dice_value (V X Y : gset jsstring) n :
  X ⊆ V -> Y ⊆ V -> (size V <= n)%nat -> dice X Y ∈ diceValues n.
Proof.
  intros HX HY HV.
  apply subseteq_size in HX, HY.
  assert (size (X ∩ Y) <= size X)%nat by apply subseteq_size, intersection_subseteq_l.
  assert (size (X ∩ Y) <= size Y)%nat by apply subseteq_size, intersection_subseteq_r.
  change (dice X Y) with (diceN (size (X ∩ Y)) (size X + size Y)).
  apply diceN_value; lia.
Qed.

Lemma percentOk_round x :
  percentOk x = true -> (defaultThreshold <=? x)%float = true ->
  (30 <= Math_round (x * 100)%float <= 100)%Z.
Proof.
  unfold percentOk. intros H Hx. rewrite Hx in H.
  apply andb_true_iff in H as [Hlo Hhi]. by apply Math_round_percent.
Qed.

Lemma vocabulary_sizes :
  size (list_to_set (C := gset jsstring) importantTerms) = length importantTerms /\
  size (list_to_set (C := gset jsstring) themePatterns) = length themePatterns.
Proof. split; vm_compute; reflexivity. Qed.

Lemma score_percent a b :
  inVocabulary a -> inVocabulary b ->
  (defaultThreshold <=? calculateSimilarity a b)%float = true ->
  (30 <= Math_round (calculateSimilarity a b * 100)%float <= 100)%Z.
Proof.
  intros [Hka Hta] [Hkb Htb]. rewrite calculateSimilarity_score.
  apply percentOk_round. unfold score.
  destruct vocabulary_sizes as [Hk Ht].
  apply (percentOk_table _ _ _ _ tableOk_vocabulary).
  - eapply dice_value; [exact Hka | exact Hkb | by rewrite Hk].
  - eapply dice_value; [exact Hta | exact Htb | by rewrite Ht].
Qed.

(** ** Vocabulary matching *)

Lemma fold_push_if {A} (P : A -> bool) (acc l : list A) :
  foldl (fun acc x => if P x then acc ++ [x] else acc) acc l
  = acc ++ filter (fun x => P x) l.
Proof.
  revert acc. induction l as [|x l IH]; intros acc; cbn [foldl].
  - by rewrite app_nil_r.
  - rewrite IH, filter_cons. destruct (P x); simpl.
    + by rewrite <- app_assoc.
    + done.
Qed.

Lemma JSSet_fold_fresh l s : NoDup (s ++ l) -> foldl JSSet.add s l = s ++ l.
Proof.
  revert s. induction l as [|x l IH]; intros s Hn; cbn [foldl].
  - by rewrite app_nil_r.
  - assert (x ∉ s) as Hx.
    { apply NoDup_app in Hn as (_ & Hd & _). intros Hin.
      apply (Hd x Hin). left. }
    unfold JSSet.add at 2, JSSet.has. rewrite bool_decide_eq_false_2 by done.
    rewrite IH; rewrite <- app_assoc; done.
Qed.

Lemma JSSet_of_list_NoDup_id l : NoDup l -> JSSet.of_list l = l.
Proof. intros Hn. unfold JSSet.of_list. by rewrite JSSet_fold_fresh. Qed.

Lemma themePatterns_NoDup : NoDup themePatterns.
Proof. apply (bool_decide_unpack _). vm_compute. reflexivity. Qed.

Lemma importantTerms_NoDup : NoDup importantTerms.
Proof. apply (bool_decide_unpack _). vm_compute. reflexivity. Qed.

Lemma extractThemes_filter content :
  extractThemes content = filter (fun theme => includes theme content) themePatterns.
Proof.
  unfold extractThemes, JSSet.to_list.
  rewrite (fold_push_if (fun theme => includes theme content)). cbn [app].
  apply JSSet_of_list_NoDup_id, NoDup_filter, themePatterns_NoDup.
Qed.

Lemma extractKeywords_elem text s y :
  y ∈ extractKeywords text s <->
  y ∈ s \/ (y ∈ importantTerms /\ includes y text = true).
Proof.
  unfold extractKeywords. generalize importantTerms as terms.
  intros terms. revert s. induction terms as [|t terms IH]; intros s; cbn [foldl].
  - rewrite elem_of_nil. tauto.
  - rewrite IH, elem_of_cons. destruct (includes t text) eqn:Ht.
    + rewrite JSSet_add_elem. split.
      * intros [[H| ->]|[H1 H2]]; auto.
      * intros [H|[[->|H1] H2]]; auto.
    + split.
      * intros [H|[H1 H2]]; auto.
      * intros [H|[[->|H1] H2]]; auto. congruence.
Qed.

Lemma extractKeywords_NoDup text s : NoDup s -> NoDup (extractKeywords text s).
Proof.
  unfold extractKeywords. generalize importantTerms as terms.
  intros terms. revert s. induction terms as [|t terms IH]; intros s Hs; cbn [foldl].
  - done.
  - apply IH. destruct (includes t text); [by apply JSSet_add_NoDup | done].
Qed.

(** The keywords [parseLine] has after a line. *)
Lemma parseLine_keywords st raw :
  st_keywords (parseLine st raw)
  = if startsWith lit_summary_header (trim raw) then st_keywords st
    else extractKeywords (trim raw) (st_keywords st).
Proof.
  unfold parseLine. destruct (startsWith lit_summary_header (trim raw)); [done|].
  by destruct (if inSummary st then _ else _).
Qed.

Lemma parseLoop_keywords_elem lines st y :
  y ∈ st_keywords (foldl parseLine st lines) <->
  y ∈ st_keywords st \/
  exists raw, raw ∈ lines /\ startsWith lit_summary_header (trim raw) = false
              /\ y ∈ importantTerms /\ includes y (trim raw) = true.
Proof.
  revert st. induction lines as [|raw lines IH]; intros st; cbn [foldl].
  - split; [auto|]. intros [H|(raw & Hr & _)]; [done|]. by apply elem_of_nil in Hr.
  - rewrite IH, parseLine_keywords.
    destruct (startsWith lit_summary_header (trim raw)) eqn:Hh.
    + split.
      * intros [H|(r & Hr & H)]; [by left|]. right. exists r. split; [by right|done].
      * intros [H|(r & Hr & Hs & H)]; [by left|].
        apply elem_of_cons in Hr as [->|Hr]; [congruence|].
        right. exists r. done.
    + rewrite extractKeywords_elem. split.
      * intros [[H|[H1 H2]]|(r & Hr & H)]; [by left| |].
        -- right. exists raw. split; [left|done].
        -- right. exists r. split; [by right|done].
      * intros [H|(r & Hr & Hs & H)]; [by left; left|].
        apply elem_of_cons in Hr as [->|Hr]; [by left; right|].
        right. exists r. done.
Qed.

Lemma parseLoop_keywords_NoDup lines st :
  NoDup (st_keywords st) -> NoDup (st_keywords (foldl parseLine st lines)).
Proof.
  revert st. induction lines as [|raw lines IH]; intros st Hs; cbn [foldl]; [done|].
  apply IH. rewrite parseLine_keywords.
  destruct (startsWith _ _); [done | by apply extractKeywords_NoDup].
Qed.

Lemma recordOf_inVocabulary f id : inVocabulary (recordOf f id).
Proof.
  split.
  - unfold keywordSet. cbn [recordOf Episode.keywords parseMarkdown Parsed.keywords].
    intros y. rewrite !elem_of_list_to_set. unfold JSSet.to_list, parseLoop.
    rewrite parseLoop_keywords_elem. cbn [st_keywords JSSet.empty].
    intros [H|(r & _ & _ & H & _)]; [by apply elem_of_nil in H | done].
  - unfold themeSet. cbn [recordOf Episode.themes parseMarkdown Parsed.themes].
    rewrite extractThemes_filter.
    intros y. rewrite !elem_of_list_to_set, list_elem_of_filter. tauto.
Qed.

(** ** Whole-text and line-by-line matching *)

Section LineScan.
Implicit Types (t s a b : jsstring) (c : N).

Lemma startsWith_app_sep t c s b :
  c ∉ t -> startsWith t (s ++ c :: b) = startsWith t s.
Proof.
  revert s. induction t as [|y t IH]; intros s Hc; [done|].
  apply not_elem_of_cons in Hc as [Hy Ht].
  destruct s as [|z s]; cbn [app startsWith].
  - destruct (N.eqb_spec y c); [congruence | done].
  - by rewrite IH.
Qed.

Lemma includes_nil t : t <> [] -> includes t [] = false.
Proof. by destruct t. Qed.

(** An occurrence in [a ++ c :: b] of a string without [c] lies in [a] or
    in [b]. *)
Lemma includes_app_sep t c a b :
  c ∉ t -> t <> [] ->
  includes t (a ++ c :: b) = includes t a || includes t b.
Proof.
  intros Hc Ht. induction a as [|x a IH].
  - pose proof (startsWith_app_sep t c [] b Hc) as Hs.
    cbn [app] in Hs |- *. cbn [includes]. rewrite Hs.
    destruct t; [done|]. done.
  - change ((x :: a) ++ c :: b) with (x :: (a ++ c :: b)).
    cbn [includes]. rewrite IH.
    change (x :: (a ++ c :: b)) with ((x :: a) ++ c :: b).
    rewrite (startsWith_app_sep t c (x :: a) b Hc).
    by rewrite !orb_assoc.
Qed.

Lemma includes_split t c s :
  c ∉ t -> t <> [] ->
  includes t s = existsb (includes t) (split c s).
Proof.
  intros Hc Ht.
  assert (H : forall n s, (length s <= n)%nat ->
            includes t s = existsb (includes t) (split c s)).
  { clear s. induction n as [|n IH]; intros s Hn.
    - destruct s; [|simpl in Hn; lia]. cbn [split existsb]. by rewrite orb_false_r.
    - destruct (split_inv c s) as [(a & -> & -> & _) | (a & b & -> & _ & ->)].
      + cbn [existsb]. by rewrite orb_false_r.
      + rewrite includes_app_sep by done. cbn [existsb]. f_equal.
        apply IH. rewrite length_app in Hn. simpl in Hn. lia. }
  by apply (H (length s)).
Qed.

Lemma includes_rev t s : includes (rev t) (rev s) = includes t s.
Proof.
  apply eq_true_iff_eq. rewrite !includes_infix. split.
  - intros (l & r & E). apply (f_equal (@rev N)) in E.
    rewrite !rev_app_distr, !rev_involutive in E.
    exists (rev r), (rev l). by rewrite E, <- app_assoc.
  - intros (l & r & ->). exists (rev r), (rev l).
    by rewrite !rev_app_distr, <- app_assoc.
Qed.

Lemma includes_trimStart t s :
  (forall c t', t = c :: t' -> isWhiteSpace c = false) -> t <> [] ->
  includes t (trimStart s) = includes t s.
Proof.
  intros Hh Ht. induction s as [|c s IH]; [done|].
  cbn [trimStart]. destruct (isWhiteSpace c) eqn:Hw; [|done].
  rewrite IH. cbn [includes].
  destruct t as [|y t']; [done|]. cbn [startsWith].
  destruct (N.eqb_spec y c) as [->|]; [|done].
  by rewrite (Hh c t' eq_refl) in Hw.
Qed.

Lemma plainTerm_spec t :
  plainTerm t = true <-> t <> [] /\ Forall (fun c => isWhiteSpace c = false) t.
Proof.
  destruct t as [|c t]; [split; [done | by intros [? _]]|].
  unfold plainTerm. rewrite forallb_forall, Forall_forall. split.
  - intros H. split; [done|]. intros x Hx%list_elem_of_In.
    by apply negb_true_iff, H.
  - intros [_ H] x Hx%list_elem_of_In. by apply negb_true_iff, H.
Qed.

Lemma includes_trim t s : plainTerm t = true -> includes t (trim s) = includes t s.
Proof.
  intros [Ht Hw]%plainTerm_spec. unfold trim, trimEnd.
  rewrite <- includes_rev, rev_involutive.
  rewrite includes_trimStart, includes_rev.
  - apply includes_trimStart; [|done].
    intros c t' ->. by apply Forall_cons in Hw as [? _].
  - intros c t' E.
    apply (proj1 (Forall_forall (fun c => isWhiteSpace c = false) t) Hw).
    apply list_elem_of_In, in_rev. rewrite E. left. done.
  - intros E. apply Ht. by rewrite <- (rev_involutive t), E.
Qed.

Lemma plainTerm_no_newline t : plainTerm t = true -> lit_newline ∉ t.
Proof.
  intros [_ Hw]%plainTerm_spec Hin.
  by eapply Forall_forall in Hw; [|exact Hin].
Qed.

(** A plain term occurs in a text exactly when it occurs in one of its
    trimmed lines. *)
Lemma includes_lines t content :
  plainTerm t = true ->
  includes t content = true <->
  exists raw, raw ∈ split lit_newline content /\ includes t (trim raw) = true.
Proof.
  intros Hp. pose proof Hp as [Ht _]%plainTerm_spec.
  rewrite (includes_split t lit_newline) by (by try apply plainTerm_no_newline).
  rewrite existsb_exists. split.
  - intros (raw & Hin%list_elem_of_In & Hi). exists raw.
    by rewrite includes_trim.
  - intros (raw & Hin & Hi). exists raw. rewrite includes_trim in Hi by done.
    split; [by apply list_elem_of_In | done].
Qed.

End LineScan.

Lemma importantTerms_plain : Forall (fun t => plainTerm t = true) importantTerms.
Proof.
  apply Forall_forall. intros t Ht%list_elem_of_In. revert t Ht.
  apply forallb_forall. vm_compute. reflexivity.
Qed.

(** ** C1: the similarity score *)

(** C1: for all episode records [a] and [b] the score is the keyword score
    times 0.6 plus the theme score times 0.4, each score being twice the
    number of shared elements over the sum of the two set sizes, or 0 when
    that sum is 0 (in double arithmetic, as the source computes it); and
    when [a] has the keywords PT and 研究 and the theme 教育, and [b] the
    keyword PT and the themes 教育 and 科学, the score is the double 2/3
    and [Math.round(score * 100)] is 67. *)
Theorem similarity_formula :
  (forall a b,
     calculateSimilarity a b
     = (dice (keywordSet a) (keywordSet b) * 0.6
        + dice (themeSet a) (themeSet b) * 0.4)%float)
  /\ (forall a b,
        keywordSet a = {[Examples.kw_PT; Examples.kw_research]} ->
        themeSet a = {[Examples.th_education]} ->
        keywordSet b = {[Examples.kw_PT]} ->
        themeSet b = {[Examples.th_education; Examples.th_science]} ->
        calculateSimilarity a b = (2 / 3)%float
        /\ Math_round (calculateSimilarity a b * 100)%float = 67%Z).
Proof.
  split.
  - apply calculateSimilarity_score.
  - intros a b Hka Hta Hkb Htb.
    rewrite calculateSimilarity_score. unfold score.
    rewrite Hka, Hta, Hkb, Htb. split; vm_compute; reflexivity.
Qed.

(** The worked example on two concrete records. *)
Lemma similarity_formula_witness :
  calculateSimilarity Examples.episode_A Examples.episode_B = (2 / 3)%float
  /\ Math_round (calculateSimilarity Examples.episode_A Examples.episode_B * 100)%float
     = 67%Z.
Proof.
  apply (proj2 similarity_formula Examples.episode_A Examples.episode_B);
    vm_compute; reflexivity.
Defined.

(** ** C3: the related list *)

Lemma take_StronglySorted {A} (R : relation A) n (l : list A) :
  StronglySorted R l -> StronglySorted R (take n l).
Proof.
  intros H. rewrite <- (take_drop n l) in H.
  by apply StronglySorted_app_1_l in H.
Qed.

Lemma StronglySorted_weaken {A} (R R' : relation A) (l : list A) :
  (forall x y, R x y -> R' x y) -> StronglySorted R l -> StronglySorted R' l.
Proof.
  intros HR. induction 1 as [|x l _ IH Hx]; constructor; [done|].
  eapply Forall_impl; [exact Hx | apply HR].
Qed.

Lemma findRelatedEpisodes_sorted current all th :
  StronglySorted (fun r1 r2 => (Related.similarity r2 <= Related.similarity r1)%Z)
                 (findRelatedEpisodes current all th).
Proof.
  rewrite findRelatedEpisodes_spec. apply take_StronglySorted.
  eapply StronglySorted_weaken;
    [|apply (Array_sort_sorted bySimilarity (fun r => (- Related.similarity r)%Z))].
  - intros r1 r2 H. cbv beta in H. lia.
  - intros r1 r2 _ _. unfold bySimilarity. f_equal. lia.
Qed.

(** C3: every record of the built corpus has at most 5 related entries, the
    similarity of each is an integer from 30 to 100 (so within [0,100] and at
    least 30), and the entries are in descending order of similarity. *)
Theorem related_bounded dir eps e :
  processAllFiles dir = Ok eps -> e ∈ eps ->
  (length (Episode.relatedEpisodes e) <= 5)%nat
  /\ Forall (fun r => (30 <= Related.similarity r <= 100)%Z)
            (Episode.relatedEpisodes e)
  /\ StronglySorted
       (fun r1 r2 => (Related.similarity r2 <= Related.similarity r1)%Z)
       (Episode.relatedEpisodes e).
Proof.
  intros Hb He. destruct (built_elem _ _ _ Hb He) as (e0 & He0 & ->).
  cbn [relate Episode.with_related Episode.relatedEpisodes]. split_and!.
  - unfold findRelatedEpisodes. rewrite length_take. lia.
  - apply Forall_forall. intros r Hr.
    apply findRelatedEpisodes_elem in Hr as (ep & Hep & Hc).
    apply candidate_Some in Hc as (_ & Hth & ->). cbn [Related.similarity].
    apply extracted_elem in He0 as (f0 & id0 & _ & _ & ->).
    apply extracted_elem in Hep as (f1 & id1 & _ & _ & ->).
    apply score_percent; [apply recordOf_inVocabulary.. | done].
  - apply findRelatedEpisodes_sorted.
Qed.

(** ** C5: vocabulary matching *)

(** The themes are the whole-text match against the theme vocabulary. *)
Lemma parseMarkdown_themes content filename :
  list_to_set (Parsed.themes (parseMarkdown content filename))
  = matchVocabulary content themePatterns.
Proof.
  cbn [parseMarkdown Parsed.themes]. by rewrite extractThemes_filter.
Qed.

(** The keywords are the terms that occur in a trimmed line other than a
    Summary header line. *)
Lemma parseMarkdown_keywords content filename y :
  y ∈ Parsed.keywords (parseMarkdown content filename) <->
  exists raw, raw ∈ split lit_newline content
              /\ isSummaryHeader (trim raw) = false
              /\ y ∈ matchVocabulary (trim raw) importantTerms.
Proof.
  cbn [parseMarkdown Parsed.keywords]. unfold JSSet.to_list, parseLoop.
  rewrite parseLoop_keywords_elem. cbn [st_keywords JSSet.empty].
  unfold matchVocabulary, isSummaryHeader. split.
  - intros [H|(raw & Hr & Hs & Hy & Hi)]; [by apply elem_of_nil in H|].
    exists raw. split_and!; [done..|].
    apply elem_of_list_to_set, list_elem_of_filter. split; [by rewrite Hi | done].
  - intros (raw & Hr & Hs & H). right. exists raw.
    apply elem_of_list_to_set, list_elem_of_filter in H as [Hi Hy].
    split_and!; [done.. |]. by apply Is_true_true.
Qed.

(** When no line is a Summary header line, the keywords are the whole-text
    match against the keyword vocabulary. *)
Lemma parseMarkdown_keywords_whole content filename :
  Forall (fun raw => isSummaryHeader (trim raw) = false)
         (split lit_newline content) ->
  list_to_set (Parsed.keywords (parseMarkdown content filename))
  = matchVocabulary content importantTerms.
Proof.
  intros Hh. apply set_eq. intros y.
  rewrite elem_of_list_to_set, parseMarkdown_keywords.
  unfold matchVocabulary. rewrite elem_of_list_to_set, list_elem_of_filter.
  split.
  - intros (raw & Hr & _ & Hy).
    apply elem_of_list_to_set, list_elem_of_filter in Hy as [Hi Hy].
    split; [|done]. apply Is_true_true.
    apply includes_lines.
    + by eapply Forall_forall in Hy; [|apply importantTerms_plain].
    + exists raw. split; [done | by apply Is_true_true].
  - intros [Hi Hy]. apply Is_true_true in Hi.
    apply includes_lines in Hi as (raw & Hr & Hi).
    + exists raw. split_and!; [done | by eapply Forall_forall in Hh |].
      apply elem_of_list_to_set, list_elem_of_filter.
      split; [by apply Is_true_true | done].
    + by eapply Forall_forall in Hy; [|apply importantTerms_plain].
Qed.

(** C5 fails on the code for the keywords: the loop leaves the Summary header
    line ([continue]) before it scans the line for keywords, so a term that
    occurs only on that line is in the text and not in the keywords, while
    the themes, matched against the whole text, have theirs. *)
Theorem keywords_miss_summary_header :
  includes Examples.kw_therapist Examples.content_header_keyword = true
  /\ matchVocabulary Examples.content_header_keyword importantTerms
     = {[Examples.kw_therapist]}
  /\ Parsed.keywords (parseMarkdown Examples.content_header_keyword Examples.file_1)
     = []
  /\ Parsed.themes (parseMarkdown Examples.content_header_keyword Examples.file_1)
     = [Examples.th_therapy].
Proof. split_and!; vm_compute; reflexivity. Qed.

(** ** The summary *)













(** ** Integers below 2^53 in binary64 *)

Section ExactIntegers.
Local Open Scope Z_scope.

Lemma digits2_pos_size p : digits2_pos p = Pos.size p.
Proof. induction p as [p IH|p IH|]; cbn [digits2_pos Pos.size]; congruence. Qed.

Lemma digits2_pos_log2 p : Z.pos (digits2_pos p) = Z.log2 (Z.pos p) + 1.
Proof.
  destruct p as [p|p|]; cbn [digits2_pos Z.log2]; [| |reflexivity];
    rewrite digits2_pos_size; lia.
Qed.

Lemma bits_shift z k : 0 < z -> 0 <= k -> bits (z * 2 ^ k) = bits z + k.
Proof. intros Hz Hk. unfold bits. rewrite Z.log2_mul_pow2 by lia. lia. Qed.

Lemma bits_range z : 0 < z -> z < 2 ^ 53 -> 1 <= bits z <= 53.
Proof.
  intros Hz Hlt. unfold bits. pose proof (Z.log2_nonneg z).
  assert (Z.log2 z < 53); [|lia]. by apply Z.log2_lt_pow2.
Qed.

Lemma iter_pos_nat {A} (f : A -> A) p x :
  SpecFloat.iter_pos f p x = Nat.iter (Pos.to_nat p) f x.
Proof.
  revert x. induction p as [p IH|p IH|]; intros x; cbn [SpecFloat.iter_pos].
  - rewrite !IH, Pos2Nat.inj_xI.
    replace (S (2 * Pos.to_nat p)) with (Pos.to_nat p + (Pos.to_nat p + 1))%nat
      by lia.
    rewrite !Nat.iter_add. reflexivity.
  - rewrite !IH, Pos2Nat.inj_xO.
    replace (2 * Pos.to_nat p)%nat with (Pos.to_nat p + Pos.to_nat p)%nat by lia.
    rewrite Nat.iter_add. reflexivity.
  - reflexivity.
Qed.

Lemma shr_1_even z :
  0 < z ->
  shr_1 {| shr_m := 2 * z; shr_r := false; shr_s := false |}
  = {| shr_m := z; shr_r := false; shr_s := false |}.
Proof. destruct z; [lia | reflexivity | lia]. Qed.

Lemma shr_exact (k : nat) z :
  0 < z ->
  Nat.iter k shr_1 {| shr_m := z * 2 ^ Z.of_nat k; shr_r := false; shr_s := false |}
  = {| shr_m := z; shr_r := false; shr_s := false |}.
Proof.
  intros Hz. induction k as [|k IH].
  - cbn [Nat.iter]. rewrite Z.mul_1_r. reflexivity.
  - rewrite Nat.iter_succ_r, Nat2Z.inj_succ, Z.pow_succ_r by lia.
    replace (z * (2 * 2 ^ Z.of_nat k)) with (2 * (z * 2 ^ Z.of_nat k)) by lia.
    rewrite shr_1_even by (apply Z.mul_pos_pos; [lia | apply Z.pow_pos_nonneg; lia]).
    exact IH.
Qed.

Lemma fexp_normal x : -1021 <= x -> fexp prec emax x = x - 53.
Proof. intros Hx. unfold fexp, SpecFloat.emin, prec, emax. lia. Qed.

Lemma Zdigits2_bits m : 0 < m -> Zdigits2 m = bits m.
Proof.
  destruct m as [|p|p]; [lia| |lia]. intros _. apply digits2_pos_log2.
Qed.

Lemma mantissaOf_exponentOf z : mantissaOf z = z * 2 ^ (- exponentOf z).
Proof. unfold mantissaOf, exponentOf. f_equal. f_equal. lia. Qed.

Lemma mantissaOf_pos z : 0 < z -> z < 2 ^ 53 -> 0 < mantissaOf z.
Proof.
  intros Hz Hlt. pose proof (bits_range z Hz Hlt). unfold mantissaOf.
  apply Z.mul_pos_pos; [lia|]. apply Z.pow_pos_nonneg; lia.
Qed.

(** Shifting out zeros: the mantissa [z * 2 ^ (- e)] at the exponent [e]
    renormalises to the 53 bits of [z] without any rounding. *)
Lemma shr_fexp_exact z e m :
  0 < z -> z < 2 ^ 53 -> e <= exponentOf z -> m = z * 2 ^ (- e) ->
  shr_fexp prec emax m e loc_Exact
  = ({| shr_m := mantissaOf z; shr_r := false; shr_s := false |}, exponentOf z).
Proof.
  intros Hz Hlt He ->. pose proof (bits_range z Hz Hlt) as Hb.
  unfold exponentOf in He. unfold shr_fexp.
  rewrite Zdigits2_bits
    by (apply Z.mul_pos_pos; [lia | apply Z.pow_pos_nonneg; lia]).
  rewrite bits_shift by lia.
  replace (bits z + - e + e) with (bits z) by lia.
  rewrite fexp_normal by lia. cbn [shr_record_of_loc].
  destruct (bits z - 53 - e) as [|p|p] eqn:Hn; cbn [shr]; [| |lia].
  - f_equal; [|unfold exponentOf; lia]. f_equal. unfold mantissaOf.
    f_equal. f_equal. lia.
  - rewrite iter_pos_nat. f_equal; [|unfold exponentOf; lia].
    replace (z * 2 ^ (- e))
      with (mantissaOf z * 2 ^ Z.of_nat (Pos.to_nat p)).
    + apply shr_exact. by apply mantissaOf_pos.
    + unfold mantissaOf. rewrite positive_nat_Z, <- Z.mul_assoc.
      rewrite <- Z.pow_add_r by lia. f_equal. f_equal. lia.
Qed.

Lemma binary_round_aux_exact s z e m :
  0 < z -> z < 2 ^ 53 -> e <= exponentOf z -> m = z * 2 ^ (- e) ->
  binary_round_aux prec emax s m e loc_Exact = canonical s z.
Proof.
  intros Hz Hlt He Hm. unfold binary_round_aux.
  rewrite (shr_fexp_exact z e m Hz Hlt He Hm).
  cbn [shr_m shr_r shr_s loc_of_shr_record round_nearest_even].
  rewrite (shr_fexp_exact z (exponentOf z) (mantissaOf z) Hz Hlt (Z.le_refl _)
             (mantissaOf_exponentOf z)).
  cbn [shr_m]. pose proof (mantissaOf_pos z Hz Hlt) as Hp.
  pose proof (bits_range z Hz Hlt) as Hb. unfold canonical.
  destruct (mantissaOf z) as [|q|q]; [lia| |lia].
  replace (exponentOf z <=? emax - prec) with true; [reflexivity|].
  symmetry. apply Z.leb_le. unfold exponentOf, emax, prec. lia.
Qed.

Lemma Pos_iter_xO m d : Z.pos (Pos.iter xO m d) = Z.pos m * 2 ^ Z.pos d.
Proof.
  induction d as [|d IH] using Pos.peano_ind.
  - cbn [Pos.iter]. lia.
  - rewrite Pos.iter_succ, Pos2Z.inj_xO, IH, Pos2Z.inj_succ, Z.pow_succ_r by lia.
    lia.
Qed.

Lemma shl_align_value m e e' :
  e' <= e ->
  snd (shl_align m e e') = e'
  /\ Z.pos (fst (shl_align m e e')) = Z.pos m * 2 ^ (e - e').
Proof.
  intros He. unfold shl_align. destruct (e' - e) as [|d|d] eqn:Hd; cbn [fst snd].
  - split; [lia|]. replace (e - e') with 0 by lia. lia.
  - lia.
  - split; [reflexivity|]. rewrite Pos_iter_xO. f_equal. f_equal. lia.
Qed.

Lemma binary_round_exact s z e m :
  0 < z -> z < 2 ^ 53 -> e <= 0 -> Z.pos m = z * 2 ^ (- e) ->
  binary_round prec emax s m e = canonical s z.
Proof.
  intros Hz Hlt He Hm. pose proof (bits_range z Hz Hlt) as Hb.
  unfold binary_round. rewrite digits2_pos_log2. fold (bits (Z.pos m)).
  rewrite Hm, bits_shift by lia.
  replace (bits z + - e + e) with (bits z) by lia.
  rewrite fexp_normal by lia. fold (exponentOf z).
  destruct (Z.le_gt_cases e (exponentOf z)) as [Hle|Hgt].
  - replace (shl_align m e (exponentOf z)) with (m, e).
    + by apply binary_round_aux_exact.
    + unfold shl_align. destruct (exponentOf z - e) eqn:Hd; [done..|lia].
  - destruct (shl_align_value m e (exponentOf z) ltac:(lia)) as [He' Hm'].
    destruct (shl_align m e (exponentOf z)) as [m' e']. cbn [fst snd] in *.
    subst e'. apply binary_round_aux_exact; [done..|].
    rewrite Hm', Hm, <- Z.mul_assoc, <- Z.pow_add_r by lia.
    f_equal. f_equal. lia.
Qed.

Lemma SFofZ_pos z : 0 < z -> z < 2 ^ 53 -> SFofZ z = canonical false z.
Proof.
  intros Hz Hlt. destruct z as [|m|m]; [lia| |lia].
  unfold SFofZ. cbn [binary_normalize]. apply binary_round_exact; [done..|].
  cbn. lia.
Qed.

Lemma SFofZ_neg z : 0 < z -> z < 2 ^ 53 -> SFofZ (- z) = canonical true z.
Proof.
  intros Hz Hlt. destruct z as [|m|m]; [lia| |lia].
  unfold SFofZ. cbn [Z.opp binary_normalize]. apply binary_round_exact; [done..|].
  cbn. lia.
Qed.

(** A mantissa that is an exact multiple of a power of two normalises to
    the double of the integer. *)
Lemma binary_normalize_exact z e :
  - 2 ^ 53 < z -> z < 2 ^ 53 -> e <= 0 ->
  binary_normalize prec emax (z * 2 ^ (- e)) e false = SFofZ z.
Proof.
  intros Hlo Hhi He.
  assert (0 < 2 ^ (- e)) as Hp by (apply Z.pow_pos_nonneg; lia).
  destruct (Z.lt_trichotomy z 0) as [Hz|[->|Hz]].
  - replace z with (- - z) at 2 by lia. rewrite SFofZ_neg by lia.
    destruct (z * 2 ^ (- e)) as [|m|m] eqn:Hm; [nia|nia|].
    cbn [binary_normalize]. apply binary_round_exact; [lia..|]. lia.
  - reflexivity.
  - rewrite SFofZ_pos by lia.
    destruct (z * 2 ^ (- e)) as [|m|m] eqn:Hm; [nia| |nia].
    cbn [binary_normalize]. apply binary_round_exact; [lia..|]. lia.
Qed.

Lemma aligned_mantissa z ez :
  0 < z -> z < 2 ^ 53 -> ez <= exponentOf z ->
  Z.pos (fst (shl_align (Z.to_pos (mantissaOf z)) (exponentOf z) ez))
  = z * 2 ^ (- ez).
Proof.
  intros Hz Hlt He. pose proof (bits_range z Hz Hlt) as Hb.
  destruct (shl_align_value (Z.to_pos (mantissaOf z)) (exponentOf z) ez He)
    as [_ ->].
  rewrite Z2Pos.id by by apply mantissaOf_pos.
  unfold exponentOf in *. rewrite mantissaOf_exponentOf. unfold exponentOf.
  rewrite <- Z.mul_assoc, <- Z.pow_add_r by lia. f_equal. f_equal. lia.
Qed.

Lemma SFadd_exact a b :
  0 <= a -> 0 <= b -> a + b < 2 ^ 53 ->
  SFadd prec emax (SFofZ a) (SFofZ b) = SFofZ (a + b).
Proof.
  intros Ha Hb Hlt.
  destruct (Z.eq_dec a 0) as [->|Ha0].
  { destruct (Z.eq_dec b 0) as [->|Hb0]; [reflexivity|].
    rewrite Z.add_0_l, (SFofZ_pos b) by lia. reflexivity. }
  destruct (Z.eq_dec b 0) as [->|Hb0].
  { rewrite Z.add_0_r, (SFofZ_pos a) by lia. reflexivity. }
  rewrite (SFofZ_pos a), (SFofZ_pos b) by lia.
  pose proof (bits_range a ltac:(lia) ltac:(lia)) as Hba.
  pose proof (bits_range b ltac:(lia) ltac:(lia)) as Hbb.
  unfold canonical. cbn [SFadd cond_Zopp].
  set (ez := Z.min (exponentOf a) (exponentOf b)).
  rewrite !aligned_mantissa by (unfold ez; lia).
  rewrite <- Z.mul_add_distr_r.
  apply binary_normalize_exact; [lia | lia |].
  unfold ez, exponentOf. lia.
Qed.

Lemma SFsub_exact a b :
  0 <= a -> a < 2 ^ 53 -> 0 <= b -> b < 2 ^ 53 ->
  SFsub prec emax (SFofZ a) (SFofZ b) = SFofZ (a - b).
Proof.
  intros Ha Hat Hb Hbt.
  destruct (Z.eq_dec a 0) as [->|Ha0].
  { destruct (Z.eq_dec b 0) as [->|Hb0]; [reflexivity|].
    rewrite Z.sub_0_l, (SFofZ_neg b), (SFofZ_pos b) by lia. reflexivity. }
  destruct (Z.eq_dec b 0) as [->|Hb0].
  { rewrite Z.sub_0_r, (SFofZ_pos a) by lia. reflexivity. }
  rewrite (SFofZ_pos a), (SFofZ_pos b) by lia.
  pose proof (bits_range a ltac:(lia) ltac:(lia)) as Hba.
  pose proof (bits_range b ltac:(lia) ltac:(lia)) as Hbb.
  unfold canonical. cbn [SFsub cond_Zopp].
  set (ez := Z.min (exponentOf a) (exponentOf b)).
  rewrite !aligned_mantissa by (unfold ez; lia).
  rewrite <- Z.mul_sub_distr_r.
  apply binary_normalize_exact; [lia | lia |].
  unfold ez, exponentOf. lia.
Qed.

Lemma SFmul_exact a b :
  0 <= a -> a < 2 ^ 53 -> 0 <= b -> b < 2 ^ 53 -> a * b < 2 ^ 53 ->
  SFmul prec emax (SFofZ a) (SFofZ b) = SFofZ (a * b).
Proof.
  intros Ha Hat Hb Hbt Hlt.
  destruct (Z.eq_dec a 0) as [->|Ha0].
  { destruct (Z.eq_dec b 0) as [->|Hb0]; [reflexivity|].
    rewrite Z.mul_0_l, (SFofZ_pos b) by lia. reflexivity. }
  destruct (Z.eq_dec b 0) as [->|Hb0].
  { rewrite Z.mul_0_r, (SFofZ_pos a) by lia. reflexivity. }
  rewrite (SFofZ_pos a), (SFofZ_pos b), (SFofZ_pos (a * b)) by nia.
  pose proof (bits_range a ltac:(lia) ltac:(lia)) as Hba.
  pose proof (bits_range b ltac:(lia) ltac:(lia)) as Hbb.
  unfold canonical at 1 2. cbn [SFmul xorb].
  apply binary_round_aux_exact; [nia | lia | |].
  - unfold exponentOf, bits.
    pose proof (Z.log2_mul_below a b ltac:(lia) ltac:(lia)). lia.
  - rewrite Pos2Z.inj_mul, !Z2Pos.id by (apply mantissaOf_pos; lia).
    rewrite !mantissaOf_exponentOf. unfold exponentOf.
    replace (- (bits a - 53 + (bits b - 53)))
      with (- (bits a - 53) + - (bits b - 53)) by lia.
    rewrite Z.pow_add_r by lia. lia.
Qed.

Lemma valid_SFofZ z :
  - 2 ^ 53 < z -> z < 2 ^ 53 -> SpecFloat.valid_binary prec emax (SFofZ z) = true.
Proof.
  intros Hlo Hhi.
  assert (forall s x, 0 < x -> x < 2 ^ 53 ->
            SpecFloat.valid_binary prec emax (canonical s x) = true) as Hc.
  { intros s x Hx Hlt. pose proof (bits_range x Hx Hlt) as Hb.
    unfold canonical. cbn [SpecFloat.valid_binary].
    unfold bounded, canonical_mantissa.
    rewrite digits2_pos_log2, Z2Pos.id by by apply mantissaOf_pos.
    fold (bits (mantissaOf x)). unfold mantissaOf at 1.
    rewrite bits_shift by lia.
    replace (bits x + (53 - bits x) + exponentOf x) with (bits x)
      by (unfold exponentOf; lia).
    rewrite fexp_normal by lia. fold (exponentOf x).
    rewrite Z.eqb_refl. apply Z.leb_le. unfold exponentOf, emax, prec. lia. }
  destruct (Z.lt_trichotomy z 0) as [Hz|[->|Hz]].
  - replace z with (- - z) by lia. rewrite SFofZ_neg by lia. apply Hc; lia.
  - reflexivity.
  - rewrite SFofZ_pos by lia. apply Hc; lia.
Qed.

(** *** The doubles of integers *)

Lemma Prim2SF_numberOfZ z :
  - 2 ^ 53 < z -> z < 2 ^ 53 -> Prim2SF (numberOfZ z) = SFofZ z.
Proof. intros Hlo Hhi. apply Prim2SF_SF2Prim. by apply valid_SFofZ. Qed.

Lemma numberOfZ_add a b :
  0 <= a -> 0 <= b -> a + b < 2 ^ 53 ->
  (numberOfZ a + numberOfZ b)%float = numberOfZ (a + b).
Proof.
  intros Ha Hb Hlt. apply Prim2SF_inj.
  rewrite FloatAxioms.add_spec, !Prim2SF_numberOfZ by lia. by apply SFadd_exact.
Qed.

Lemma numberOfZ_mul a b :
  0 <= a -> a < 2 ^ 53 -> 0 <= b -> b < 2 ^ 53 -> a * b < 2 ^ 53 ->
  (numberOfZ a * numberOfZ b)%float = numberOfZ (a * b).
Proof.
  intros Ha Hat Hb Hbt Hlt. apply Prim2SF_inj.
  rewrite FloatAxioms.mul_spec, !Prim2SF_numberOfZ by nia. by apply SFmul_exact.
Qed.

Lemma numberOfZ_sub a b :
  0 <= a -> a < 2 ^ 53 -> 0 <= b -> b < 2 ^ 53 ->
  (numberOfZ a - numberOfZ b)%float = numberOfZ (a - b).
Proof.
  intros Ha Hat Hb Hbt. apply Prim2SF_inj.
  rewrite FloatAxioms.sub_spec, !Prim2SF_numberOfZ by lia. by apply SFsub_exact.
Qed.

Lemma Prim2SF_zero : Prim2SF 0 = S754_zero false.
Proof. reflexivity. Qed.

Lemma numberOfZ_positive z :
  - 2 ^ 53 < z -> z < 2 ^ 53 -> (0 <? numberOfZ z)%float = (0 <? z).
Proof.
  intros Hlo Hhi. rewrite FloatAxioms.ltb_spec, Prim2SF_zero, Prim2SF_numberOfZ by done.
  destruct (Z.lt_trichotomy z 0) as [Hz|[->|Hz]].
  - replace z with (- - z) at 1 by lia. rewrite SFofZ_neg by lia.
    destruct (Z.ltb_spec 0 z); [lia | reflexivity].
  - reflexivity.
  - rewrite SFofZ_pos by lia. destruct (Z.ltb_spec 0 z); [reflexivity | lia].
Qed.

(** The sign the sort reads of the difference of two keys that are safe
    integers. *)
Lemma numberSign_sub a b :
  0 <= a -> a < 2 ^ 53 -> 0 <= b -> b < 2 ^ 53 ->
  (0 <? default 0 (numberSign (numberOfZ a - numberOfZ b)%float))
  = (b <? a).
Proof.
  intros Ha Hat Hb Hbt. rewrite numberOfZ_sub by done.
  unfold numberSign. rewrite numberOfZ_positive by lia.
  destruct (Z.ltb_spec 0 (a - b)), (Z.ltb_spec b a); try lia; [reflexivity|].
  destruct (numberOfZ (a - b) <? 0)%float; reflexivity.
Qed.

(** The difference of a double and itself is a zero or [NaN], never
    positive. *)
Lemma sub_diag_not_positive (x : float) : (0 <? x - x)%float = false.
Proof.
  rewrite FloatAxioms.ltb_spec, FloatAxioms.sub_spec, Prim2SF_zero.
  destruct (Prim2SF x) as [[|]|[|]| |s m e]; try reflexivity.
  unfold SF64sub. cbn [SFsub]. rewrite Z.min_id.
  destruct (shl_align_value m e e (Z.le_refl e)) as [_ Hm].
  rewrite Z.sub_diag. reflexivity.
Qed.

End ExactIntegers.

(** ** The sort key *)

Lemma digitPrefix_digits s :
  Forall (fun c => isDigit c = true) s -> digitPrefix isDigit s = s.
Proof.
  induction 1 as [|c s Hc _ IH]; [done|]. cbn [digitPrefix]. by rewrite Hc, IH.
Qed.

Lemma numeralValue_digits s acc :
  Forall (fun c => isDigit c = true) s ->
  foldl (fun acc c => acc * 10 + digitValue c)%Z acc s
  = foldl (fun acc c => acc * 10 + (Z.of_N c - 48))%Z acc s.
Proof.
  intros Hd. revert acc. induction Hd as [|c s Hc _ IH]; intros acc; [done|].
  cbn [foldl]. rewrite IH. unfold digitValue. by rewrite Hc.
Qed.

Lemma isDigit_cases c :
  isDigit c = true ->
  (c = 48 \/ c = 49 \/ c = 50 \/ c = 51 \/ c = 52 \/ c = 53
   \/ c = 54 \/ c = 55 \/ c = 56 \/ c = 57)%N.
Proof.
  unfold isDigit. intros [Hlo%N.leb_le Hhi%N.leb_le]%andb_true_iff. lia.
Qed.

(** On a string of decimal digits [parseInt] meets no white space, no sign
    and no radix prefix. *)
Lemma parseInt_decimal s :
  isDigits s = true ->
  parseInt s = match digitPrefix isDigit s with
               | [] => PrimFloat.nan
               | ds =>
                   if (numeralValue 10 ds =? 0)%Z then PrimFloat.zero
                   else numberOfZ (1 * numeralValue 10 ds)
               end.
Proof.
  intros [Hne Hd]%isDigits_spec.
  destruct s as [|c s]; [done|].
  apply Forall_cons in Hd as [Hc Hs].
  apply isDigit_cases in Hc.
  destruct_or!; subst c; try reflexivity.
  destruct s as [|c' r]; [reflexivity|].
  apply Forall_cons in Hs as [Hc' _]. apply isDigit_cases in Hc'.
  destruct_or!; subst c'; reflexivity.
Qed.

(** [parseInt] of a string of decimal digits is the double nearest to the
    integer the digits denote. *)
Lemma parseInt_digits s :
  isDigits s = true -> parseInt s = numberOfZ (digitsValue s).
Proof.
  intros Hs. rewrite (parseInt_decimal _ Hs).
  apply isDigits_spec in Hs as [Hne Hd].
  rewrite (digitPrefix_digits _ Hd).
  destruct s as [|c s]; [done|].
  unfold numeralValue, digitsValue. rewrite (numeralValue_digits _ _ Hd).
  destruct (Z.eqb_spec (foldl (fun acc c0 => acc * 10 + (Z.of_N c0 - 48))%Z
                              0%Z (c :: s)) 0) as [->|_]; [reflexivity|].
  by rewrite Z.mul_1_l.
Qed.

Lemma digits_fold_nonneg s acc :
  Forall (fun c => isDigit c = true) s -> (0 <= acc)%Z ->
  (0 <= foldl (fun acc c => acc * 10 + (Z.of_N c - 48)) acc s)%Z.
Proof.
  intros Hd. revert acc. induction Hd as [|c s Hc _ IH]; intros acc Ha; [done|].
  cbn [foldl]. apply IH. unfold isDigit in Hc.
  apply andb_true_iff in Hc as [Hlo%N.leb_le _]. lia.
Qed.

Lemma digitsValue_nonneg s : isDigits s = true -> (0 <= digitsValue s)%Z.
Proof.
  intros [_ Hd]%isDigits_spec. by apply digits_fold_nonneg.
Qed.

Lemma render_extra_split m :
  isDigits m = true ->
  split lit_hyphen (lit_extra_hyphen ++ m) = [lit_extra; m].
Proof.
  intros Hm.
  change (lit_extra_hyphen ++ m) with (lit_extra ++ lit_hyphen :: m).
  rewrite split_app_sep.
  - by rewrite split_no_sep by by apply isDigits_no_hyphen.
  - apply (bool_decide_unpack _). by vm_compute.
Qed.

Lemma digits_head n : isDigits n = true -> exists c r, n = c :: r /\ isDigit c = true.
Proof.
  intros [Hne Hd]%isDigits_spec. destruct n as [|c r]; [done|].
  apply Forall_cons in Hd as [Hc _]. eauto.
Qed.

Lemma number_10 : 10%float = numberOfZ 10.
Proof. reflexivity. Qed.

Lemma number_1000 : 1000%float = numberOfZ 1000.
Proof. reflexivity. Qed.

Lemma number_0 : 0%float = numberOfZ 0.
Proof. reflexivity. Qed.

Lemma two_53 : (2 ^ 53 = 9007199254740992)%Z.
Proof. reflexivity. Qed.

(** The splitting of the three forms of id. *)
Lemma render_sub_split n m :
  isDigits n = true -> isDigits m = true ->
  split lit_hyphen (n ++ lit_hyphen :: m) = [n; m].
Proof.
  intros Hn Hm. rewrite split_app_sep by by apply isDigits_no_hyphen.
  by rewrite split_no_sep by by apply isDigits_no_hyphen.
Qed.

Lemma render_sub_plain n m :
  isDigits n = true -> isDigits m = true ->
  n ++ lit_hyphen :: m <> lit_zero
  /\ startsWith lit_extra (n ++ lit_hyphen :: m) = false
  /\ startsWith lit_extra_hyphen (n ++ lit_hyphen :: m) = false.
Proof.
  intros Hn Hm. destruct (digits_head _ Hn) as (c & r & -> & Hc).
  split_and!.
  - intros E. apply (f_equal length) in E. cbn in E.
    rewrite length_app in E. cbn in E. lia.
  - cbn [lit_extra startsWith app].
    destruct (N.eqb_spec 30058 c) as [<-|]; [by vm_compute in Hc | done].
  - cbn [lit_extra_hyphen startsWith app].
    destruct (N.eqb_spec 30058 c) as [<-|]; [by vm_compute in Hc | done].
Qed.

Lemma render_plain_not_extra n :
  isDigits n = true ->
  startsWith lit_extra n = false /\ startsWith lit_extra_hyphen n = false.
Proof.
  intros Hn. destruct (digits_head _ Hn) as (c & r & -> & Hc). split.
  - cbn [lit_extra startsWith].
    destruct (N.eqb_spec 30058 c) as [<-|]; [by vm_compute in Hc | done].
  - cbn [lit_extra_hyphen startsWith].
    destruct (N.eqb_spec 30058 c) as [<-|]; [by vm_compute in Hc | done].
Qed.

(** The exact key of each form of id. *)
Lemma exactKey_shape sh : wellFormed sh -> exactKey (render sh) = orderKey sh.
Proof.
  destruct sh as [n|n m|m]; cbn [wellFormed render orderKey].
  - intros Hn. unfold exactKey. case_bool_decide as Hz.
    + by rewrite Hz.
    + destruct (render_plain_not_extra _ Hn) as [_ ->].
      by rewrite split_no_sep by by apply isDigits_no_hyphen.
  - intros [Hn Hm]. unfold exactKey.
    destruct (render_sub_plain _ _ Hn Hm) as (Hz & _ & ->).
    rewrite bool_decide_eq_false_2 by done.
    by rewrite render_sub_split.
  - intros Hm. unfold exactKey.
    rewrite bool_decide_eq_false_2 by done.
    by rewrite startsWith_app, drop_app_length.
Qed.

Lemma orderKey_parts sh :
  wellFormed sh ->
  match sh with
  | Plain n => 0 <= digitsValue n
  | Sub n m => 0 <= digitsValue n /\ 0 <= digitsValue m
  | Extra m => 0 <= digitsValue m
  end%Z.
Proof.
  destruct sh as [n|n m|m]; cbn [wellFormed].
  - apply digitsValue_nonneg.
  - intros [Hn Hm]. split; by apply digitsValue_nonneg.
  - apply digitsValue_nonneg.
Qed.

Lemma orderKey_nonneg sh : wellFormed sh -> (0 <= orderKey sh)%Z.
Proof.
  intros Hw. pose proof (orderKey_parts sh Hw) as Hp.
  destruct sh; cbn [orderKey]; lia.
Qed.

(** The key [getOrder] computes for each form of id, when the exact key is
    a safe integer: the products and sums of doubles are exact. *)
Lemma getOrder_shape sh :
  wellFormed sh -> (orderKey sh < 2 ^ 53)%Z ->
  getOrder (render sh) = numberOfZ (orderKey sh).
Proof.
  intros Hw Hlt. pose proof (orderKey_parts sh Hw) as Hp.
  rewrite two_53 in Hlt.
  destruct sh as [n|n m|m]; cbn [wellFormed render orderKey] in *.
  - unfold getOrder. case_bool_decide as Hz.
    + by rewrite Hz.
    + destruct (render_plain_not_extra _ Hw) as [-> _].
      rewrite split_no_sep by by apply isDigits_no_hyphen.
      unfold parseIntAt. cbn [lookup list_lookup].
      rewrite (parseInt_digits _ Hw), number_10, number_0.
      rewrite numberOfZ_mul, numberOfZ_add; rewrite ?two_53; try lia.
      reflexivity.
  - destruct Hw as [Hn Hm]. destruct Hp as [Hn0 Hm0]. unfold getOrder.
    destruct (render_sub_plain _ _ Hn Hm) as (Hz & -> & _).
    rewrite bool_decide_eq_false_2 by done.
    rewrite render_sub_split by done.
    destruct (digits_head _ Hm) as (c' & r' & Em & _).
    unfold parseIntAt. cbn [lookup list_lookup].
    rewrite (parseInt_digits _ Hn), (parseInt_digits _ Hm). rewrite Em at 1.
    rewrite number_10.
    rewrite numberOfZ_mul, numberOfZ_add; rewrite ?two_53; try lia.
    reflexivity.
  - unfold getOrder.
    rewrite bool_decide_eq_false_2 by done.
    change (lit_extra_hyphen ++ m) with (lit_extra ++ lit_hyphen :: m) at 1.
    rewrite startsWith_app, render_extra_split by done.
    unfold parseIntAt. cbn [lookup list_lookup].
    rewrite (parseInt_digits _ Hw), number_1000.
    rewrite numberOfZ_add; rewrite ?two_53; try lia. reflexivity.
Qed.

Lemma accepted_shape id :
  (matchesNumbered id || matchesExtra id) = true ->
  exists sh, wellFormed sh /\ id = render sh.
Proof.
  intros [H | [(n & m & -> & Hn & Hm) | (m & -> & Hm)]]%matches_shapes.
  - by exists (Plain id).
  - by exists (Sub n m).
  - by exists (Extra m).
Qed.

(** The key of an accepted id: its exact key is the key of its form, is not
    negative, and is what [getOrder] computes when it is a safe integer. *)
Lemma getOrder_accepted filename id :
  extractEpisodeId filename = Some id ->
  exists sh,
    wellFormed sh /\ id = render sh /\ exactKey id = orderKey sh
    /\ (0 <= exactKey id)%Z
    /\ ((exactKey id < 2 ^ 53)%Z -> getOrder id = numberOfZ (exactKey id)).
Proof.
  intros [_ Hm]%extractEpisodeId_Some.
  destruct (accepted_shape _ Hm) as (sh & Hw & ->).
  exists sh. rewrite (exactKey_shape _ Hw). split_and!; [done..| |].
  - by apply orderKey_nonneg.
  - by apply getOrder_shape.
Qed.

Lemma exactKey_extra id :
  matchesExtra id = true -> (1000 <= exactKey id)%Z.
Proof.
  unfold matchesExtra. intros [[m ->]%startsWith_prefix Hm]%andb_true_iff.
  rewrite drop_app_length in Hm.
  pose proof (exactKey_shape (Extra m) Hm) as E. cbn [render orderKey] in E.
  rewrite E. pose proof (digitsValue_nonneg _ Hm). lia.
Qed.

(** ** The final sort *)

Lemma StronglySorted_lookup {A} (R : relation A) (l : list A) i j x y :
  StronglySorted R l -> (i < j)%nat -> l !! i = Some x -> l !! j = Some y -> R x y.
Proof.
  intros Hs Hij Hi Hj.
  rewrite <- (take_drop j l) in Hs.
  eapply StronglySorted_app_1_elem_of; [exact Hs| |].
  - apply list_elem_of_lookup. exists i. by rewrite lookup_take_lt.
  - apply list_elem_of_lookup. exists 0%nat. by rewrite lookup_drop, Nat.add_0_r.
Qed.

Lemma StronglySorted_on {A} (R R' : relation A) (l : list A) :
  StronglySorted R l ->
  (forall x y, x ∈ l -> y ∈ l -> R x y -> R' x y) ->
  StronglySorted R' l.
Proof.
  induction 1 as [|x l _ IH Hx]; intros HR; constructor.
  - apply IH. intros a b Ha Hb. apply HR; by right.
  - apply Forall_forall. intros y Hy. apply HR; [left | by right |].
    by eapply Forall_forall in Hx.
Qed.

Lemma built_id_accepted dir eps e :
  processAllFiles dir = Ok eps -> e ∈ eps ->
  exists filename, extractEpisodeId filename = Some (Episode.id e).
Proof.
  intros Hb He. destruct (built_elem _ _ _ Hb He) as (e0 & He0 & ->).
  apply extracted_elem in He0 as (f & id & _ & Hid & ->). by exists f.1.
Qed.

(** In a directory with safe keys, the key of every record of the build is
    a safe integer and [getOrder] computes it exactly. *)
Lemma built_safe dir eps e :
  safeKeys dir -> processAllFiles dir = Ok eps -> e ∈ eps ->
  (0 <= exactKey (Episode.id e))%Z
  /\ (exactKey (Episode.id e) < 2 ^ 53)%Z
  /\ getOrder (Episode.id e) = numberOfZ (exactKey (Episode.id e)).
Proof.
  intros Hsafe Hb He. destruct (built_elem _ _ _ Hb He) as (e0 & He0 & ->).
  apply extracted_elem in He0 as (f & id & Hf & Hid & ->).
  cbn [relate Episode.with_related recordOf Episode.id].
  unfold safeKeys in Hsafe. rewrite Forall_forall in Hsafe.
  specialize (Hsafe f Hf). rewrite Hid in Hsafe.
  destruct (getOrder_accepted _ _ Hid) as (sh & _ & _ & _ & Hge & Hk).
  split_and!; [done..|]. by apply Hk.
Qed.

Lemma built_sorted dir eps :
  safeKeys dir -> processAllFiles dir = Ok eps -> StronglySorted keyLe eps.
Proof.
  intros Hsafe Hb. pose proof Hb as Hb'. rewrite processAllFiles_spec in Hb'.
  injection Hb' as <-.
  apply (Array_sort_sorted_by compareEpisodes
           (fun e => exactKey (Episode.id e))).
  intros x y Hx%(Array_sort_elem_of compareEpisodes)
             Hy%(Array_sort_elem_of compareEpisodes).
  destruct (built_safe _ _ _ Hsafe Hb Hx) as (Hx0 & Hxt & Hkx).
  destruct (built_safe _ _ _ Hsafe Hb Hy) as (Hy0 & Hyt & Hky).
  unfold sortCompare, compareEpisodes. rewrite Hkx, Hky.
  by apply numberSign_sub.
Qed.

Lemma compareEpisodes_ids a b :
  compareEpisodes a b = compareIds (Episode.id a) (Episode.id b).
Proof. done. Qed.

Lemma built_ids_sorted dir eps :
  processAllFiles dir = Ok eps ->
  Episode.id <$> eps = Array_sort compareIds (omap extractEpisodeId dir.*1).
Proof.
  rewrite processAllFiles_spec. intros [= <-].
  rewrite (Array_sort_map Episode.id compareEpisodes compareIds)
    by apply compareEpisodes_ids.
  by rewrite <- list_fmap_compose, <- extracted_ids.
Qed.

(** ** C2: the display order *)

(** C2, as stated, fails in two ways.  The key of the numbered id "101" is
    1010 and the key of the extra id "番外編-1" is 1001, so the extra record
    comes first.  And beyond 2^53 the keys of the code are rounded: the ids
    "900719925474099-03" and "900719925474099-2" have the exact keys
    9007199254740993 and 9007199254740992 and the same double 2^53 as the
    key of [getOrder], so the sort keeps them in the order of the directory,
    which is not the order of the exact keys. *)
Lemma sort_order_counterexample :
  (exists eps,
     processAllFiles Examples.dir_beyond_99 = Ok eps
     /\ Episode.id <$> eps = [utf16 "番外編-1"; utf16 "101"]
     /\ ~ extrasLast eps)
  /\ (exists a b,
        processAllFiles Examples.dir_beyond_safe = Ok [a; b]
        /\ exactKey (Episode.id a) = 9007199254740993%Z
        /\ exactKey (Episode.id b) = 9007199254740992%Z
        /\ getOrder (Episode.id a) = 9007199254740992%float
        /\ getOrder (Episode.id b) = 9007199254740992%float
        /\ ~ StronglySorted keyLe [a; b]).
Proof.
  split.
  - eexists. split; [vm_compute; reflexivity|]. split; [vm_compute; reflexivity|].
    intros H.
    specialize (H 0%nat 1%nat _ _ eq_refl eq_refl).
    cbn [Episode.id] in H.
    assert (1 < 0)%nat; [|lia].
    apply H; vm_compute; reflexivity.
  - eexists _, _. split; [vm_compute; reflexivity|].
    cbn [Episode.id]. split_and!; [vm_compute; reflexivity..|].
    intros Hs. apply StronglySorted_inv in Hs as [_ Ha].
    apply Forall_cons in Ha as [Hle _]. unfold keyLe in Hle.
    cbn [Episode.id] in Hle. vm_compute in Hle. by apply Hle.
Qed.

(** C2, amended: when the keys of the accepted ids are safe integers (below
    2^53), the built sequence is in non-decreasing order of the key, which
    is: 0 for the id "0"; the integer part times 10 plus the integer after
    the hyphen (0 when there is none) for a numbered id; 1000 plus the
    integer after the hyphen for an extra-episode id; and [getOrder]
    computes the double of this key.  So an extra-episode record comes after
    every numbered record whose key is below 1000; and a directory whose
    accepted ids are, in order, "0", "1", "2-1", "2", "番外編-1" is built in
    the order "0", "1", "2", "2-1", "番外編-1". *)
Theorem sort_order dir eps :
  safeKeys dir -> processAllFiles dir = Ok eps ->
  StronglySorted keyLe eps
  /\ (forall e, e ∈ eps ->
        exists sh, wellFormed sh /\ Episode.id e = render sh
                   /\ exactKey (Episode.id e) = orderKey sh
                   /\ getOrder (Episode.id e) = numberOfZ (orderKey sh))
  /\ getOrder lit_zero = 0%float
  /\ (forall i j ex en,
        eps !! i = Some ex -> eps !! j = Some en ->
        matchesExtra (Episode.id ex) = true ->
        matchesNumbered (Episode.id en) = true ->
        (exactKey (Episode.id en) < 1000)%Z ->
        (j < i)%nat)
  /\ (omap extractEpisodeId dir.*1 = Examples.ids_given ->
      Episode.id <$> eps = Examples.ids_sorted).
Proof.
  intros Hsafe Hb. pose proof (built_sorted _ _ Hsafe Hb) as Hs. split_and!.
  - exact Hs.
  - intros e He. destruct (built_id_accepted _ _ _ Hb He) as (f & Hf).
    destruct (getOrder_accepted _ _ Hf) as (sh & Hw & Hr & Hk & _ & _).
    destruct (built_safe _ _ _ Hsafe Hb He) as (_ & _ & Hg).
    exists sh. split_and!; [done..|]. by rewrite Hg, Hk.
  - reflexivity.
  - intros i j ex en Hi Hj Hx Hn Hlt.
    pose proof (exactKey_extra _ Hx) as Hge.
    destruct (Nat.lt_trichotomy j i) as [Hji|[->|Hij]]; [done| |].
    + rewrite Hi in Hj. injection Hj as ->. lia.
    + pose proof (StronglySorted_lookup _ _ _ _ _ _ Hs Hij Hi Hj) as Hle.
      unfold keyLe in Hle. lia.
  - intros Hids. rewrite (built_ids_sorted _ _ Hb), Hids.
    vm_compute. reflexivity.
Qed.

(** The order of the small directory. *)
Lemma sort_order_witness :
  safeKeys Examples.dir_small
  /\ StronglySorted keyLe Examples.built_small
  /\ Episode.id <$> Examples.built_small = Examples.ids_sorted.
Proof.
  assert (Hsafe : safeKeys Examples.dir_small).
  { unfold safeKeys.
    repeat (constructor; [vm_compute; first [reflexivity | exact I]|]).
    constructor. }
  assert (Hb : processAllFiles Examples.dir_small = Ok Examples.built_small)
    by (vm_compute; reflexivity).
  destruct (sort_order Examples.dir_small Examples.built_small Hsafe Hb)
    as (Hs & _ & _ & _ & Hex).
  split; [exact Hsafe|]. split; [exact Hs|]. apply Hex. vm_compute. reflexivity.
Defined.

(** ** Instances on a small directory *)

(** The related lists of the small directory are bounded and ordered. *)
Lemma related_bounded_witness :
  Forall (fun e =>
            (length (Episode.relatedEpisodes e) <= 5)%nat
            /\ Forall (fun r => (30 <= Related.similarity r <= 100)%Z)
                      (Episode.relatedEpisodes e)
            /\ StronglySorted
                 (fun r1 r2 => (Related.similarity r2 <= Related.similarity r1)%Z)
                 (Episode.relatedEpisodes e))
         Examples.built_small.
Proof.
  apply Forall_forall. intros e He.
  apply (related_bounded Examples.dir_small Examples.built_small e);
    [vm_compute; reflexivity | exact He].
Defined.

(** No record of the small directory relates to itself. *)
Lemma no_self_relation_witness :
  Forall (fun e => Episode.id e ∉ Related.id <$> Episode.relatedEpisodes e)
         Examples.built_small.
Proof.
  apply Forall_forall. intros e He.
  apply (no_self_relation Examples.dir_small Examples.built_small e);
    [vm_compute; reflexivity | exact He].
Defined.

(** The ids of the small directory are pairwise different. *)
Lemma id_uniqueness_witness : NoDup (Episode.id <$> Examples.built_small).
Proof.
  apply (id_uniqueness Examples.dir_small Examples.built_small).
  - apply (bool_decide_unpack _). vm_compute. reflexivity.
  - vm_compute. reflexivity.
Defined.

(** The README next to one episode changes nothing. *)
Lemma unmatched_file_excluded_witness :
  processAllFiles [(lit_README, utf16 "PT"); (utf16 "1.md", utf16 "PT")]
  = processAllFiles [(utf16 "1.md", utf16 "PT")].
Proof.
  apply (unmatched_file_excluded [] (lit_README, utf16 "PT")
           [(utf16 "1.md", utf16 "PT")]).
  cbn [fst]. rewrite matchesIdPattern_spec. vm_compute. intros [? ?]. discriminate.
Defined.


(** * Further properties of the build *)

(** ** Scores *)

Lemma dice_comm (X Y : gset jsstring) : dice X Y = dice Y X.
Proof.
  unfold dice. by rewrite (comm_L (∩) X Y), (Nat.add_comm (size X)).
Qed.

(** X1: the similarity score is symmetric, for all records. *)
Theorem similarity_symmetric a b :
  calculateSimilarity a b = calculateSimilarity b a.
Proof.
  rewrite !calculateSimilarity_score. unfold score.
  by rewrite (dice_comm (keywordSet a)), (dice_comm (themeSet a)).
Qed.

Lemma scoreTable_spec P nk nt k t :
  scoreTable P nk nt = true -> k ∈ diceValues nk -> t ∈ diceValues nt ->
  P (k * 0.6 + t * 0.4)%float = true.
Proof.
  unfold scoreTable. rewrite forallb_forall. intros H Hk Ht.
  apply list_elem_of_In, H in Hk. rewrite forallb_forall in Hk.
  by apply Hk, list_elem_of_In.
Qed.

Lemma unitScore_vocabulary :
  scoreTable unitScore (length importantTerms) (length themePatterns) = true.
Proof. vm_compute. reflexivity. Qed.

Lemma disjointBelow_vocabulary :
  disjointBelow (length importantTerms) (length themePatterns) = true.
Proof. vm_compute. reflexivity. Qed.

Lemma identicalOne_vocabulary :
  identicalOne (length importantTerms) (length themePatterns) = true.
Proof. vm_compute. reflexivity. Qed.

Lemma relate_inVocabulary all e : inVocabulary e -> inVocabulary (relate all e).
Proof. done. Qed.

Lemma built_inVocabulary dir eps e :
  processAllFiles dir = Ok eps -> e ∈ eps -> inVocabulary e.
Proof.
  intros Hb He. destruct (built_elem _ _ _ Hb He) as (e0 & He0 & ->).
  apply extracted_elem in He0 as (f & id & _ & _ & ->).
  apply relate_inVocabulary, recordOf_inVocabulary.
Qed.

Lemma score_unit a b :
  inVocabulary a -> inVocabulary b ->
  unitScore (calculateSimilarity a b) = true.
Proof.
  intros [Hka Hta] [Hkb Htb]. rewrite calculateSimilarity_score. unfold score.
  destruct vocabulary_sizes as [Hk Ht].
  apply (scoreTable_spec _ _ _ _ _ unitScore_vocabulary).
  - eapply dice_value; [exact Hka | exact Hkb | by rewrite Hk].
  - eapply dice_value; [exact Hta | exact Htb | by rewrite Ht].
Qed.

(** X2: the score of any two records of a built corpus is a double from 0
    to 1. *)
Theorem score_in_unit_interval dir eps a b :
  processAllFiles dir = Ok eps -> a ∈ eps -> b ∈ eps ->
  (0 <=? calculateSimilarity a b)%float = true
  /\ (calculateSimilarity a b <=? 1)%float = true.
Proof.
  intros Hb Ha Hb'. apply andb_true_iff.
  apply score_unit; by eapply built_inVocabulary.
Qed.

(** The unit-interval bound on two records of the small directory. *)
Lemma score_in_unit_interval_witness :
  Forall (fun a => Forall (fun b =>
            (0 <=? calculateSimilarity a b)%float = true
            /\ (calculateSimilarity a b <=? 1)%float = true)
          Examples.built_small) Examples.built_small.
Proof.
  apply Forall_forall. intros a Ha. apply Forall_forall. intros b Hb.
  apply (score_in_unit_interval Examples.dir_small Examples.built_small a b);
    [vm_compute; reflexivity | exact Ha | exact Hb].
Defined.

Lemma dice_self (V X : gset jsstring) n :
  X ⊆ V -> (size V <= n)%nat -> X <> ∅ ->
  exists k, (k < n)%nat /\ dice X X = diceN (S k) (S k + S k).
Proof.
  intros HX HV Hne. apply subseteq_size in HX.
  assert (size X <> 0)%nat as Hs by (by intros ?%size_empty_inv%leibniz_equiv).
  exists (pred (size X)). split; [lia|].
  unfold dice. rewrite (idemp_L (∩) X).
  replace (S (pred (size X))) with (size X) by lia. done.
Qed.

Lemma identicalOne_spec nk nt k t :
  identicalOne nk nt = true -> (k < nk)%nat -> (t < nt)%nat ->
  (diceN (S k) (S k + S k) * 0.6 + diceN (S t) (S t + S t) * 0.4)%float = 1%float.
Proof.
  unfold identicalOne. rewrite forallb_forall. intros H Hk Ht.
  assert (In k (seq 0 nk)) as Hin by (apply list_elem_of_In, elem_of_seq; lia).
  apply H in Hin. rewrite forallb_forall in Hin.
  assert (In t (seq 0 nt)) as Hin' by (apply list_elem_of_In, elem_of_seq; lia).
  apply Hin in Hin'. by apply FloatAxioms.Leibniz.eqb_spec in Hin'.
Qed.

Lemma list_to_set_nonempty (l : list jsstring) :
  l <> [] -> list_to_set (C := gset jsstring) l <> ∅.
Proof.
  destruct l as [|x l]; [done|]. intros _ E.
  assert (x ∈ (list_to_set (x :: l) : gset jsstring)) as Hx
    by (apply elem_of_list_to_set; left).
  rewrite E in Hx. by apply elem_of_empty in Hx.
Qed.

(** X3: two records of a built corpus with the same keywords and the same
    themes, and at least one of each, score exactly 1, which rounds to the
    percentage 100. *)
Theorem identical_features_score_one dir eps a b :
  processAllFiles dir = Ok eps -> a ∈ eps -> b ∈ eps ->
  keywordSet a = keywordSet b -> themeSet a = themeSet b ->
  Episode.keywords a <> [] -> Episode.themes a <> [] ->
  calculateSimilarity a b = 1%float
  /\ Math_round (calculateSimilarity a b * 100)%float = 100%Z.
Proof.
  intros Hb Ha Hb' Hk Ht Hkn Htn.
  destruct (built_inVocabulary _ _ _ Hb Ha) as [Hka Hta].
  destruct vocabulary_sizes as [Hsk Hst].
  assert (calculateSimilarity a b = 1%float) as ->.
  { rewrite calculateSimilarity_score. unfold score. rewrite <- Hk, <- Ht.
    destruct (dice_self _ _ (length importantTerms) Hka) as (k & Hk' & ->);
      [by rewrite Hsk | by apply list_to_set_nonempty |].
    destruct (dice_self _ _ (length themePatterns) Hta) as (t & Ht' & ->);
      [by rewrite Hst | by apply list_to_set_nonempty |].
    by apply (identicalOne_spec _ _ _ _ identicalOne_vocabulary). }
  split; [done | vm_compute; reflexivity].
Qed.

(** Two documents with the same terms in another order. *)
Lemma identical_features_score_one_witness :
  exists a b,
    a ∈ Examples.built_twins /\ b ∈ Examples.built_twins
    /\ Episode.id a <> Episode.id b
    /\ calculateSimilarity a b = 1%float.
Proof.
  assert (Hb : processAllFiles Examples.dir_twins = Ok Examples.built_twins)
    by (vm_compute; reflexivity).
  assert (exists a b, Examples.built_twins = [a; b]) as (a & b & E)
    by (vm_compute; eauto).
  exists a, b.
  assert (a ∈ Examples.built_twins) as Ha by (rewrite E; left).
  assert (b ∈ Examples.built_twins) as Hb' by (rewrite E; right; left).
  split_and!; [done | done | |].
  - vm_compute in E. injection E as <- <-. vm_compute. discriminate.
  - apply (identical_features_score_one _ _ a b Hb Ha Hb').
    all: vm_compute in E; injection E as <- <-; vm_compute;
      try reflexivity; discriminate.
Defined.

(** ** Related entries point into the corpus *)

Lemma built_relate_elem dir eps e0 :
  processAllFiles dir = Ok eps -> e0 ∈ extracted dir ->
  relate (extracted dir) e0 ∈ eps.
Proof.
  rewrite processAllFiles_spec. intros [= <-] He0.
  apply Array_sort_elem_of, list_elem_of_fmap. eauto.
Qed.

(** A related entry of a built record, traced back to the record it was
    made from. *)
Lemma built_related_origin dir eps e r :
  processAllFiles dir = Ok eps -> e ∈ eps -> r ∈ Episode.relatedEpisodes e ->
  exists ep,
    ep ∈ eps
    /\ Episode.id ep <> Episode.id e
    /\ (defaultThreshold <=? calculateSimilarity e ep)%float = true
    /\ r = Related.mk (Episode.id ep) (Episode.title ep)
             (Math_round (calculateSimilarity e ep * 100)%float).
Proof.
  intros Hb He Hr. destruct (built_elem _ _ _ Hb He) as (e0 & He0 & ->).
  cbn [relate Episode.with_related Episode.relatedEpisodes] in Hr.
  apply findRelatedEpisodes_elem in Hr as (ep0 & Hep0 & Hc).
  apply candidate_Some in Hc as (Hne & Hth & ->).
  exists (relate (extracted dir) ep0). split_and!.
  - by apply (built_relate_elem dir).
  - done.
  - exact Hth.
  - done.
Qed.

(** X4: in a built corpus every related entry resolves to a record of the
    same corpus: a record other than the owner carries the entry's id and
    title, and the entry's similarity is the rounded percentage of the score
    of the two. *)
Theorem related_entry_resolves dir eps e r :
  processAllFiles dir = Ok eps -> e ∈ eps -> r ∈ Episode.relatedEpisodes e ->
  exists ep,
    ep ∈ eps
    /\ Episode.id ep = Related.id r
    /\ Episode.title ep = Related.title r
    /\ Episode.id ep <> Episode.id e
    /\ Related.similarity r
       = Math_round (calculateSimilarity e ep * 100)%float.
Proof.
  intros Hb He Hr.
  destruct (built_related_origin _ _ _ _ Hb He Hr) as (ep & Hep & Hne & _ & ->).
  exists ep. by split_and!.
Qed.

(** Every related entry of the small directory resolves. *)
Lemma related_entry_resolves_witness :
  Forall (fun e => Forall (fun r =>
            exists ep, ep ∈ Examples.built_small
                       /\ Episode.id ep = Related.id r
                       /\ Episode.title ep = Related.title r)
          (Episode.relatedEpisodes e)) Examples.built_small.
Proof.
  apply Forall_forall. intros e He. apply Forall_forall. intros r Hr.
  destruct (related_entry_resolves Examples.dir_small Examples.built_small e r)
    as (ep & Hep & Hid & Ht & _); [vm_compute; reflexivity | exact He | exact Hr |].
  exists ep. by split_and!.
Defined.

Lemma disjointBelow_spec nk nt tk tt :
  disjointBelow nk nt = true -> (tk <= 2 * nk)%nat -> (tt <= 2 * nt)%nat ->
  (defaultThreshold <=? diceN 0 tk * 0.6 + diceN 0 tt * 0.4)%float = false.
Proof.
  unfold disjointBelow. rewrite forallb_forall. intros H Hk Ht.
  assert (In tk (seq 0 (S (2 * nk)))) as Hin
    by (apply list_elem_of_In, elem_of_seq; lia).
  apply H in Hin. rewrite forallb_forall in Hin.
  assert (In tt (seq 0 (S (2 * nt)))) as Hin'
    by (apply list_elem_of_In, elem_of_seq; lia).
  apply Hin in Hin'. by apply negb_true_iff in Hin'.
Qed.

Lemma disjoint_below_threshold a b :
  inVocabulary a -> inVocabulary b ->
  keywordSet a ∩ keywordSet b = ∅ -> themeSet a ∩ themeSet b = ∅ ->
  (defaultThreshold <=? calculateSimilarity a b)%float = false.
Proof.
  intros [Hka Hta] [Hkb Htb] Hk Ht.
  rewrite calculateSimilarity_score. unfold score, dice. rewrite Hk, Ht.
  rewrite size_empty.
  destruct vocabulary_sizes as [Hsk Hst].
  apply subseteq_size in Hka, Hta, Hkb, Htb.
  apply (disjointBelow_spec _ _ _ _ disjointBelow_vocabulary); lia.
Qed.

(** X5: in a built corpus an episode is related only to episodes it shares a
    keyword or a theme with. *)
Theorem related_entry_shares_term dir eps e r :
  processAllFiles dir = Ok eps -> e ∈ eps -> r ∈ Episode.relatedEpisodes e ->
  exists ep term,
    ep ∈ eps /\ Episode.id ep = Related.id r
    /\ (term ∈ Episode.keywords e /\ term ∈ Episode.keywords ep
        \/ term ∈ Episode.themes e /\ term ∈ Episode.themes ep).
Proof.
  intros Hb He Hr.
  destruct (built_related_origin _ _ _ _ Hb He Hr) as (ep & Hep & _ & Hth & ->).
  pose proof (built_inVocabulary _ _ _ Hb He) as Hve.
  pose proof (built_inVocabulary _ _ _ Hb Hep) as Hvep.
  destruct (decide (keywordSet e ∩ keywordSet ep = ∅)) as [Hk|Hk].
  - destruct (decide (themeSet e ∩ themeSet ep = ∅)) as [Ht|Ht].
    + rewrite (disjoint_below_threshold _ _ Hve Hvep Hk Ht) in Hth. done.
    + apply set_choose_L in Ht as [term Hterm].
      apply elem_of_intersection in Hterm as [H1 H2].
      unfold themeSet in H1, H2. rewrite elem_of_list_to_set in H1, H2.
      exists ep, term. split_and!; [done..|]. by right.
  - apply set_choose_L in Hk as [term Hterm].
    apply elem_of_intersection in Hterm as [H1 H2].
    unfold keywordSet in H1, H2. rewrite elem_of_list_to_set in H1, H2.
    exists ep, term. split_and!; [done..|]. by left.
Qed.

(** Every related entry of the small directory shares a term. *)
Lemma related_entry_shares_term_witness :
  Forall (fun e => Forall (fun r =>
            exists ep term,
              ep ∈ Examples.built_small /\ Episode.id ep = Related.id r
              /\ (term ∈ Episode.keywords e /\ term ∈ Episode.keywords ep
                  \/ term ∈ Episode.themes e /\ term ∈ Episode.themes ep))
          (Episode.relatedEpisodes e)) Examples.built_small.
Proof.
  apply Forall_forall. intros e He. apply Forall_forall. intros r Hr.
  apply (related_entry_shares_term Examples.dir_small Examples.built_small e r);
    [vm_compute; reflexivity | exact He | exact Hr].
Defined.

(** ** The corpus against the directory *)

Lemma extracted_documents dir :
  (fun e => (Episode.filename e, Episode.content e)) <$> extracted dir
  = filter (fun f : entry => is_Some (extractEpisodeId f.1)) dir.
Proof.
  induction dir as [|f dir IH]; [done|].
  rewrite extracted_cons, fmap_app, IH, filter_cons.
  destruct (extractEpisodeId f.1) as [id|] eqn:Hid.
  - rewrite decide_True by eauto. cbn. by destruct f.
  - rewrite decide_False by (by intros [? ?]). done.
Qed.

Lemma built_documents dir eps :
  processAllFiles dir = Ok eps ->
  (fun e => (Episode.filename e, Episode.content e)) <$> eps
  ≡ₚ filter (fun f : entry => is_Some (extractEpisodeId f.1)) dir.
Proof.
  rewrite processAllFiles_spec. intros [= <-].
  rewrite Array_sort_perm, <- list_fmap_compose, <- extracted_documents. done.
Qed.

Lemma built_length dir eps :
  processAllFiles dir = Ok eps ->
  length eps
  = length (filter (fun f : entry => is_Some (extractEpisodeId f.1)) dir).
Proof.
  intros Hp%built_documents%Permutation_length. by rewrite length_fmap in Hp.
Qed.

(** X6: a build that returns has one record for each directory entry whose
    name the id pattern accepts, and no other: the (file name, content)
    pairs of the records are, up to order, the accepted entries. *)
Theorem corpus_covers_accepted dir eps :
  processAllFiles dir = Ok eps ->
  (fun e => (Episode.filename e, Episode.content e)) <$> eps
  ≡ₚ filter (fun f : entry => is_Some (extractEpisodeId f.1)) dir
  /\ length eps
     = length (filter (fun f : entry => is_Some (extractEpisodeId f.1)) dir).
Proof.
  intros Hb. split; [by apply built_documents | by apply built_length].
Qed.

(** The small directory has seven entries, five of them accepted. *)
Lemma corpus_covers_accepted_witness :
  length Examples.dir_small = 7%nat
  /\ (fun e => (Episode.filename e, Episode.content e)) <$> Examples.built_small
     ≡ₚ filter (fun f : entry => is_Some (extractEpisodeId f.1))
               Examples.dir_small
  /\ length Examples.built_small = 5%nat.
Proof.
  destruct (corpus_covers_accepted Examples.dir_small Examples.built_small
              ltac:(vm_compute; reflexivity)) as [Hp Hl].
  split; [reflexivity|]. split; [exact Hp|]. reflexivity.
Defined.

(** X7: every record of a built corpus is made from one directory entry
    alone, apart from its related list: the file name is the id followed by
    ".md", and the title, summary, themes, keywords and sections are the
    ones [generateTitle] and [parseMarkdown] give for that entry. *)
Theorem record_provenance dir eps e :
  processAllFiles dir = Ok eps -> e ∈ eps ->
  (Episode.filename e, Episode.content e) ∈ dir
  /\ Episode.filename e = Episode.id e ++ lit_dot_md
  /\ extractEpisodeId (Episode.filename e) = Some (Episode.id e)
  /\ generateTitle (Episode.filename e) (Episode.content e) = Ok (Episode.title e)
  /\ let parsed := parseMarkdown (Episode.content e) (Episode.filename e) in
     Episode.summary e = Parsed.summary parsed
     /\ Episode.themes e = Parsed.themes parsed
     /\ Episode.keywords e = Parsed.keywords parsed
     /\ Episode.sections e = Parsed.sections parsed.
Proof.
  intros Hb He. destruct (built_elem _ _ _ Hb He) as (e0 & He0 & ->).
  apply extracted_elem in He0 as (f & id & Hf & Hid & ->).
  cbn [relate recordOf Episode.with_related Episode.filename Episode.content
       Episode.id Episode.title Episode.summary Episode.themes Episode.keywords
       Episode.sections parseMarkdown Parsed.content].
  split; [by destruct f|].
  split; [by apply extractEpisodeId_Some in Hid as [? _]|].
  split; [done|].
  split; [by rewrite (generateTitle_accepted _ _ _ Hid)|].
  cbv zeta. cbn [Parsed.summary Parsed.themes Parsed.keywords Parsed.sections].
  by split_and!.
Qed.

(** The records of the small directory come from its entries. *)
Lemma record_provenance_witness :
  Forall (fun e => (Episode.filename e, Episode.content e) ∈ Examples.dir_small
                   /\ Episode.filename e = Episode.id e ++ lit_dot_md)
         Examples.built_small.
Proof.
  apply Forall_forall. intros e He.
  destruct (record_provenance Examples.dir_small Examples.built_small e)
    as (H1 & H2 & _); [vm_compute; reflexivity | exact He |].
  by split.
Defined.

(** ** The related list as a selection *)

Lemma candidate_ids_sublist current th all :
  Related.id <$> omap (candidate current th) all `sublist_of` Episode.id <$> all.
Proof.
  induction all as [|ep all IH]; [done|].
  cbn [omap list_omap fmap list_fmap].
  destruct (candidate current th ep) as [r|] eqn:Hc.
  - apply candidate_Some in Hc as (_ & _ & ->). cbn. by apply sublist_skip.
  - by apply sublist_cons.
Qed.

Lemma findRelatedEpisodes_ids_NoDup current all th :
  NoDup (Episode.id <$> all) ->
  NoDup (Related.id <$> findRelatedEpisodes current all th).
Proof.
  intros Hn. rewrite findRelatedEpisodes_spec.
  eapply sublist_NoDup; [|apply fmap_sublist, sublist_take].
  rewrite Array_sort_perm.
  eapply sublist_NoDup; [exact Hn | apply candidate_ids_sublist].
Qed.

(** X8: when the names of the directory are pairwise different, no record of
    the built corpus lists an episode twice among its related episodes. *)
Theorem related_ids_distinct dir eps e :
  NoDup dir.*1 -> processAllFiles dir = Ok eps -> e ∈ eps ->
  NoDup (Related.id <$> Episode.relatedEpisodes e).
Proof.
  intros Hn Hb He. destruct (built_elem _ _ _ Hb He) as (e0 & _ & ->).
  cbn [relate Episode.with_related Episode.relatedEpisodes].
  apply findRelatedEpisodes_ids_NoDup.
  rewrite extracted_ids. by apply NoDup_accepted_ids.
Qed.

(** The related ids of the small directory are pairwise different. *)
Lemma related_ids_distinct_witness :
  Forall (fun e => NoDup (Related.id <$> Episode.relatedEpisodes e))
         Examples.built_small.
Proof.
  apply Forall_forall. intros e He.
  apply (related_ids_distinct Examples.dir_small Examples.built_small e).
  - apply (bool_decide_unpack _). vm_compute. reflexivity.
  - vm_compute. reflexivity.
  - exact He.
Defined.

Lemma Array_sort_bySimilarity_sorted l :
  StronglySorted (fun r1 r2 => (Related.similarity r2 <= Related.similarity r1)%Z)
                 (Array_sort bySimilarity l).
Proof.
  eapply StronglySorted_weaken;
    [|apply (Array_sort_sorted bySimilarity (fun r => (- Related.similarity r)%Z))].
  - intros r1 r2 H. cbv beta in H. lia.
  - intros r1 r2 _ _. unfold bySimilarity. f_equal. lia.
Qed.

Lemma findRelatedEpisodes_keeps current all th ep :
  ep ∈ all -> Episode.id ep <> Episode.id current ->
  (th <=? calculateSimilarity current ep)%float = true ->
  Related.mk (Episode.id ep) (Episode.title ep)
    (Math_round (calculateSimilarity current ep * 100)%float)
  ∈ findRelatedEpisodes current all th
  \/ (length (findRelatedEpisodes current all th) = 5%nat
      /\ Forall (fun r' =>
                  (Math_round (calculateSimilarity current ep * 100)%float
                   <= Related.similarity r')%Z)
                (findRelatedEpisodes current all th)).
Proof.
  intros Hep Hne Hth.
  set (r := Related.mk (Episode.id ep) (Episode.title ep)
              (Math_round (calculateSimilarity current ep * 100)%float)).
  change (Math_round (calculateSimilarity current ep * 100)%float)
    with (Related.similarity r).
  rewrite findRelatedEpisodes_spec.
  set (sorted := Array_sort bySimilarity (omap (candidate current th) all)).
  assert (r ∈ sorted) as Hr.
  { apply Array_sort_elem_of, list_elem_of_omap. exists ep. split; [done|].
    unfold candidate. rewrite bool_decide_eq_false_2 by done. by rewrite Hth. }
  rewrite <- (take_drop 5 sorted) in Hr.
  apply elem_of_app in Hr as [Hr|Hr]; [by left|]. right.
  assert (5 < length sorted)%nat as Hlen.
  { destruct (decide (5 < length sorted)%nat) as [|Hn]; [done|].
    rewrite drop_ge in Hr by lia. by apply elem_of_nil in Hr. }
  split; [rewrite length_take; lia|].
  apply Forall_forall. intros r' Hr'.
  pose proof (Array_sort_bySimilarity_sorted (omap (candidate current th) all))
    as Hs.
  fold sorted in Hs. rewrite <- (take_drop 5 sorted) in Hs.
  apply (StronglySorted_app_1_elem_of _ _ _ _ _ Hs Hr' Hr).
Qed.

(** X9: [findRelatedEpisodes] keeps the best: an episode of the array with
    another id whose score reaches the threshold is listed, with its rounded
    percentage, unless five entries are listed and none of them has a lower
    percentage. *)
Theorem related_keeps_best current all th ep :
  ep ∈ all -> Episode.id ep <> Episode.id current ->
  (th <=? calculateSimilarity current ep)%float = true ->
  let r := Related.mk (Episode.id ep) (Episode.title ep)
             (Math_round (calculateSimilarity current ep * 100)%float) in
  r ∈ findRelatedEpisodes current all th
  \/ (length (findRelatedEpisodes current all th) = 5%nat
      /\ Forall (fun r' => (Related.similarity r <= Related.similarity r')%Z)
                (findRelatedEpisodes current all th)).
Proof.
  intros Hep Hne Hth r. by apply findRelatedEpisodes_keeps.
Qed.

(** The twin of the small corpus is listed. *)
Lemma related_keeps_best_witness :
  exists a b r,
    Examples.built_twins = [a; b]
    /\ Related.id r = Episode.id b
    /\ Related.similarity r = 100%Z
    /\ r ∈ findRelatedEpisodes a Examples.built_twins defaultThreshold.
Proof.
  assert (exists a b, Examples.built_twins = [a; b]) as (a & b & E)
    by (vm_compute; eauto).
  exists a, b. eexists. split; [exact E|].
  assert (Hb : b ∈ Examples.built_twins) by (rewrite E; right; left).
  assert (Hne : Episode.id b <> Episode.id a).
  { vm_compute in E. injection E as <- <-. vm_compute. discriminate. }
  assert (Hth : (defaultThreshold <=? calculateSimilarity a b)%float = true).
  { vm_compute in E. injection E as <- <-. vm_compute. reflexivity. }
  destruct (related_keeps_best a Examples.built_twins defaultThreshold b
              Hb Hne Hth) as [Hin|[Hlen _]].
  - split_and!; [| |exact Hin].
    + reflexivity.
    + cbn [Related.similarity]. vm_compute in E. injection E as <- <-.
      vm_compute. reflexivity.
  - exfalso. rewrite E in Hlen.
    pose proof (f_equal length (findRelatedEpisodes_spec a [a; b] defaultThreshold)) as Hl.
    rewrite length_take, Array_sort_length in Hl.
    assert (length (omap (candidate a defaultThreshold) [a; b]) <= 2)%nat.
    { cbn [omap list_omap].
      destruct (candidate a defaultThreshold a), (candidate a defaultThreshold b);
        simpl; lia. }
    lia.
Defined.

(** ** Themes, keywords and sections of one document *)

Lemma includes_keyword_content y raw content :
  plainTerm y = true -> raw ∈ split lit_newline content ->
  includes y (trim raw) = true -> includes y content = true.
Proof. intros Hp Hr Hi. apply includes_lines; eauto. Qed.

(** X10: the themes and the keywords [parseMarkdown] returns are lists
    without duplicates of vocabulary terms that occur in the content; the
    themes come in the order of the theme vocabulary; so there are at most
    27 themes and 39 keywords. *)
Theorem features_wellformed content filename :
  let parsed := parseMarkdown content filename in
  NoDup (Parsed.themes parsed)
  /\ Parsed.themes parsed `sublist_of` themePatterns
  /\ (forall t, t ∈ Parsed.themes parsed -> includes t content = true)
  /\ (length (Parsed.themes parsed) <= 27)%nat
  /\ NoDup (Parsed.keywords parsed)
  /\ (forall k, k ∈ Parsed.keywords parsed ->
        k ∈ importantTerms /\ includes k content = true)
  /\ (length (Parsed.keywords parsed) <= 39)%nat.
Proof.
  cbv zeta. cbn [parseMarkdown Parsed.themes Parsed.keywords].
  rewrite extractThemes_filter. unfold JSSet.to_list, parseLoop.
  assert (Hkn : NoDup (st_keywords
            (foldl parseLine (mkParseState false [] [] JSSet.empty)
               (split lit_newline content)))).
  { apply parseLoop_keywords_NoDup. cbn [st_keywords JSSet.empty]. constructor. }
  assert (Hkin : forall k, k ∈ st_keywords
            (foldl parseLine (mkParseState false [] [] JSSet.empty)
               (split lit_newline content)) ->
            k ∈ importantTerms /\ includes k content = true).
  { intros k Hk. apply parseLoop_keywords_elem in Hk as [Hk|(raw & Hr & _ & Hv & Hi)].
    - by apply elem_of_nil in Hk.
    - split; [done|]. eapply includes_keyword_content; [|exact Hr|exact Hi].
      by eapply Forall_forall in Hv; [|apply importantTerms_plain]. }
  split_and!.
  - apply NoDup_filter, themePatterns_NoDup.
  - apply sublist_filter.
  - intros t [Ht _]%list_elem_of_filter. by apply Is_true_true.
  - etrans; [apply sublist_length, sublist_filter|]. by vm_compute.
  - exact Hkn.
  - exact Hkin.
  - change 39%nat with (length importantTerms).
    apply submseteq_length, NoDup_submseteq; [exact Hkn|].
    intros k Hk. by apply Hkin.
Qed.

Lemma includes_app t pre s post :
  includes t s = true -> includes t (pre ++ s ++ post) = true.
Proof.
  rewrite !includes_infix. intros (l & r & ->).
  exists (pre ++ l), (r ++ post). by rewrite <- !app_assoc.
Qed.

(** X11: themes only grow with the text: every theme of a content is a theme
    of any text that contains the content. *)
Theorem themes_monotone content pre post t :
  t ∈ extractThemes content -> t ∈ extractThemes (pre ++ content ++ post).
Proof.
  rewrite !extractThemes_filter, !list_elem_of_filter.
  intros [Hi Ht]. split; [|done].
  apply Is_true_true. by apply includes_app, Is_true_true.
Qed.

(** A theme of a heading stays when a line is put before and after. *)
Lemma themes_monotone_witness :
  Examples.th_education
  ∈ extractThemes (utf16 "## " ++ Examples.th_education ++ utf16 "
PT").
Proof.
  apply (themes_monotone Examples.th_education (utf16 "## ") (utf16 "
PT")).
  vm_compute. left.
Defined.

(** The sections [parseLine] has after a line. *)
Lemma parseLine_sections st raw :
  st_sections (parseLine st raw)
  = st_sections st
    ++ (if startsWith lit_h3 (trim raw)
        then [replaceFirstWs lit_glyph (stripPrefixWs lit_h3 (trim raw))]
        else []).
Proof.
  unfold parseLine.
  destruct (startsWith lit_summary_header (trim raw)) eqn:Hs.
  - cbn [st_sections].
    replace (startsWith lit_h3 (trim raw)) with false; [by rewrite app_nil_r|].
    apply startsWith_prefix in Hs as [r ->]. reflexivity.
  - destruct (if inSummary st then _ else _).
    cbn [st_sections]. destruct (startsWith lit_h3 (trim raw)); [done|].
    by rewrite app_nil_r.
Qed.

Lemma parseLoop_sections raws st :
  st_sections (foldl parseLine st raws)
  = st_sections st
    ++ ((fun line => replaceFirstWs lit_glyph (stripPrefixWs lit_h3 line))
          <$> filter (fun line => startsWith lit_h3 line) (trim <$> raws)).
Proof.
  revert st. induction raws as [|raw raws IH]; intros st.
  - by rewrite app_nil_r.
  - cbn [foldl]. rewrite IH, parseLine_sections, <- app_assoc. f_equal.
    rewrite fmap_cons, filter_cons.
    destruct (decide _) as [Hh|Hh].
    + apply Is_true_true in Hh. by rewrite Hh.
    + apply Is_true_false in Hh. by rewrite Hh.
Qed.

(** X12: the sections [parseMarkdown] returns are, in document order and
    without removing duplicates, the trimmed lines that begin with "###",
    each without the mark "###" and the white space after it, and without its
    first "◆" and the white space after that; a document with no such line
    has no sections. *)
Theorem sections_extraction content filename :
  Parsed.sections (parseMarkdown content filename)
  = (fun line => replaceFirstWs lit_glyph (trimStart (drop 3 line)))
      <$> filter (fun line => startsWith lit_h3 line)
                 (trim <$> split lit_newline content).
Proof.
  cbn [parseMarkdown Parsed.sections]. unfold parseLoop.
  rewrite parseLoop_sections. cbn [st_sections app].
  apply Forall_fmap_ext_1, Forall_forall.
  intros line [Hh _]%list_elem_of_filter. apply Is_true_true in Hh.
  unfold stripPrefixWs. by rewrite Hh.
Qed.

(** ** The order of strings *)

Section StringOrder.
Implicit Types (x y z : jsstring).

Lemma stringLt_irrefl x : stringLt x x = false.
Proof.
  induction x as [|a x IH]; [done|]. cbn [stringLt].
  by rewrite N.ltb_irrefl, N.eqb_refl, IH.
Qed.

Lemma stringLt_asym x y : stringLt x y = true -> stringLt y x = false.
Proof.
  revert y. induction x as [|a x IH]; intros [|b y]; cbn [stringLt]; try done.
  intros [Hlt|[Heq Hr]%andb_true_iff]%orb_true_iff.
  - apply N.ltb_lt in Hlt. apply orb_false_iff. split.
    + apply N.ltb_ge. lia.
    + apply andb_false_iff. left. apply N.eqb_neq. lia.
  - apply N.eqb_eq in Heq as ->. rewrite N.ltb_irrefl, N.eqb_refl. cbn.
    by apply IH.
Qed.

Lemma stringLt_trans x y z :
  stringLt x y = true -> stringLt y z = true -> stringLt x z = true.
Proof.
  revert y z. induction x as [|a x IH]; intros [|b y] [|c z];
    cbn [stringLt]; try done.
  intros [H1|[E1 R1]%andb_true_iff]%orb_true_iff
         [H2|[E2 R2]%andb_true_iff]%orb_true_iff;
    apply orb_true_iff.
  - left. apply N.ltb_lt in H1, H2. apply N.ltb_lt. lia.
  - left. apply N.eqb_eq in E2 as <-. done.
  - left. apply N.eqb_eq in E1 as ->. done.
  - right. apply N.eqb_eq in E1 as ->. rewrite E2. cbn. by eapply IH.
Qed.

Lemma stringLt_total x y :
  stringLt x y = false -> stringLt y x = false -> x = y.
Proof.
  revert y. induction x as [|a x IH]; intros [|b y]; cbn [stringLt]; try done.
  intros [H1 H2]%orb_false_iff [H3 H4]%orb_false_iff.
  apply N.ltb_ge in H1, H3. assert (a = b) as -> by lia.
  rewrite N.eqb_refl in H2, H4. cbn in H2, H4. f_equal. by apply IH.
Qed.

(** [x <= y]: [y] is not below [x]. *)
Lemma stringLe_trans x y z :
  stringLt y x = false -> stringLt z y = false -> stringLt z x = false.
Proof.
  intros Hxy Hyz. destruct (stringLt z x) eqn:Hzx; [|done].
  destruct (stringLt x y) eqn:Hlt.
  - by rewrite (stringLt_trans _ _ _ Hzx Hlt) in Hyz.
  - rewrite (stringLt_total _ _ Hlt Hxy) in Hzx. congruence.
Qed.

End StringOrder.

(** ** [Array_sort] with a comparator that follows an order *)

Section ArraySortOrder.
Context {A : Type} (comparefn : A -> A -> option Z) (R : relation A).
Hypothesis R_trans : forall x y z, R x y -> R y z -> R x z.
Hypothesis cmp_le : forall x y, (0 <? sortCompare comparefn x y)%Z = false -> R x y.
Hypothesis cmp_gt : forall x y, (0 <? sortCompare comparefn x y)%Z = true -> R y x.

Lemma sortInsert_ordered x l :
  StronglySorted R l -> StronglySorted R (sortInsert comparefn x l).
Proof using R_trans cmp_le cmp_gt.
  induction 1 as [|y l Hs IH Hy]; cbn [sortInsert].
  - repeat constructor.
  - destruct (0 <? sortCompare comparefn x y)%Z eqn:Hc.
    + constructor; [exact IH|].
      apply Forall_forall. intros z Hz.
      apply (elem_of_Permutation_proper _ _ _ (sortInsert_perm comparefn x l)) in Hz.
      apply elem_of_cons in Hz as [->|Hz]; [by apply cmp_gt|].
      by eapply Forall_forall in Hy.
    + constructor; [by constructor|].
      constructor; [by apply cmp_le|].
      eapply Forall_impl; [exact Hy|]. intros z Hz.
      eapply R_trans; [by apply cmp_le | exact Hz].
Qed.

Lemma Array_sort_ordered l : StronglySorted R (Array_sort comparefn l).
Proof using R_trans cmp_le cmp_gt.
  induction l as [|x l IH]; [constructor|].
  by apply sortInsert_ordered.
Qed.

End ArraySortOrder.

Lemma Array_sort_default_sorted l :
  StronglySorted (fun x y => stringLt y x = false) (Array_sort defaultCompare l).
Proof.
  apply Array_sort_ordered.
  - intros x y z. apply stringLe_trans.
  - intros x y. unfold sortCompare, defaultCompare.
    destruct (stringLt x y) eqn:Hxy; [intros _; by apply stringLt_asym|].
    by destruct (stringLt y x).
  - intros x y. unfold sortCompare, defaultCompare.
    destruct (stringLt x y) eqn:Hxy; [done|]. done.
Qed.

(** ** [getAllThemes] *)

Lemma allThemes_fold_elem episodes s t :
  t ∈ foldl (fun set ep => foldl JSSet.add set (Episode.themes ep)) s episodes
  <-> t ∈ s \/ exists ep, ep ∈ episodes /\ t ∈ Episode.themes ep.
Proof.
  revert s. induction episodes as [|ep episodes IH]; intros s; cbn [foldl].
  - split; [auto|]. intros [H|(ep & Hep & _)]; [done|]. by apply elem_of_nil in Hep.
  - rewrite IH, JSSet_fold_elem. split.
    + intros [[H|H]|(ep' & Hep' & H)]; [by left| |].
      * right. exists ep. split; [left|done].
      * right. exists ep'. split; [by right|done].
    + intros [H|(ep' & Hep' & H)]; [by left; left|].
      apply elem_of_cons in Hep' as [->|Hep']; [by left; right|].
      right. eauto.
Qed.

Lemma allThemes_fold_NoDup episodes s :
  NoDup s ->
  NoDup (foldl (fun set ep => foldl JSSet.add set (Episode.themes ep)) s episodes).
Proof.
  revert s. induction episodes as [|ep episodes IH]; intros s Hs; cbn [foldl].
  - done.
  - by apply IH, JSSet_fold_NoDup.
Qed.

Lemma StronglySorted_strict l :
  NoDup l -> StronglySorted (fun x y => stringLt y x = false) l ->
  StronglySorted (fun x y => stringLt x y = true) l.
Proof.
  intros Hn Hs. induction Hs as [|x l Hs IH Hx]; [constructor|].
  apply NoDup_cons in Hn as [Hx' Hn]. constructor; [by apply IH|].
  apply Forall_forall. intros y Hy.
  pose proof (proj1 (Forall_forall _ _) Hx y Hy) as Hle. cbv beta in Hle.
  destruct (stringLt x y) eqn:Hlt; [done|].
  rewrite (stringLt_total _ _ Hlt Hle) in Hx'. done.
Qed.

Lemma getAllThemes_NoDup episodes : NoDup (getAllThemes episodes).
Proof.
  unfold getAllThemes, JSSet.to_list. rewrite Array_sort_perm.
  apply allThemes_fold_NoDup. constructor.
Qed.

Lemma getAllThemes_elem episodes t :
  t ∈ getAllThemes episodes <-> exists ep, ep ∈ episodes /\ t ∈ Episode.themes ep.
Proof.
  unfold getAllThemes, JSSet.to_list.
  rewrite Array_sort_elem_of, allThemes_fold_elem.
  split; [|by right]. intros [H|H]; [by apply elem_of_nil in H | done].
Qed.

(** X13: [getAllThemes] returns the themes of the episodes, each once, in
    strictly ascending order of their code units. *)
Theorem getAllThemes_sorted_distinct episodes :
  StronglySorted (fun x y => stringLt x y = true) (getAllThemes episodes)
  /\ NoDup (getAllThemes episodes)
  /\ (forall t, t ∈ getAllThemes episodes
                <-> exists ep, ep ∈ episodes /\ t ∈ Episode.themes ep).
Proof.
  split_and!.
  - apply StronglySorted_strict; [apply getAllThemes_NoDup|].
    apply Array_sort_default_sorted.
  - apply getAllThemes_NoDup.
  - apply getAllThemes_elem.
Qed.

(** X14: on a built corpus [getAllThemes] returns terms of the theme
    vocabulary only, so at most 27 of them. *)
Theorem getAllThemes_vocabulary dir eps :
  processAllFiles dir = Ok eps ->
  (forall t, t ∈ getAllThemes eps -> t ∈ themePatterns)
  /\ (length (getAllThemes eps) <= 27)%nat.
Proof.
  intros Hb.
  assert (Hsub : forall t, t ∈ getAllThemes eps -> t ∈ themePatterns).
  { intros t (ep & Hep & Ht)%getAllThemes_elem.
    destruct (built_inVocabulary _ _ _ Hb Hep) as [_ Hth].
    assert (t ∈ themeSet ep) as Hs by by apply elem_of_list_to_set.
    apply Hth in Hs. by apply elem_of_list_to_set in Hs. }
  split; [exact Hsub|].
  change 27%nat with (length themePatterns).
  apply submseteq_length, NoDup_submseteq; [apply getAllThemes_NoDup | exact Hsub].
Qed.

(** The themes of the small directory. *)
Lemma getAllThemes_vocabulary_witness :
  (length (getAllThemes Examples.built_small) <= 27)%nat.
Proof.
  apply (getAllThemes_vocabulary Examples.dir_small Examples.built_small).
  vm_compute. reflexivity.
Defined.

(** ** [generateIndex] *)

(** X15: the index of a built corpus counts the accepted entries of the
    directory, lists the episodes in the build's order, and every id its
    related lists name is the id of one of its episodes. *)
Theorem index_of_build dir eps now :
  processAllFiles dir = Ok eps ->
  let index := generateIndex eps now in
  Index.totalEpisodes index
  = length (filter (fun f : entry => is_Some (extractEpisodeId f.1)) dir)
  /\ length (Index.episodes index) = Index.totalEpisodes index
  /\ IndexEntry.id <$> Index.episodes index = Episode.id <$> eps
  /\ (forall entry r,
        entry ∈ Index.episodes index -> r ∈ IndexEntry.relatedEpisodes entry ->
        Related.id r ∈ IndexEntry.id <$> Index.episodes index).
Proof.
  intros Hb. cbv zeta. cbn [generateIndex Index.totalEpisodes Index.episodes].
  assert (Hids : IndexEntry.id <$>
            map (fun ep => IndexEntry.mk (Episode.id ep) (Episode.filename ep)
                   (Episode.title ep) (Episode.summary ep) (Episode.themes ep)
                   (Episode.keywords ep) (Episode.sections ep)
                   (Episode.relatedEpisodes ep)) eps
          = Episode.id <$> eps).
  { induction eps as [|e eps' IH'] in |- *; [done|]. cbn. f_equal.
    clear. induction eps' as [|e' l IHl]; [done|]. cbn. by f_equal. }
  split_and!.
  - apply built_length, Hb.
  - apply length_map.
  - exact Hids.
  - intros entry r Hentry Hr. rewrite Hids.
    apply list_elem_of_In, in_map_iff in Hentry as (e & <- & He%list_elem_of_In).
    cbn [IndexEntry.relatedEpisodes] in Hr.
    destruct (built_related_origin _ _ _ _ Hb He Hr) as (ep & Hep & _ & _ & ->).
    apply list_elem_of_fmap. exists ep. by split.
Qed.

(** The index of the small directory. *)
Lemma index_of_build_witness :
  Index.totalEpisodes (generateIndex Examples.built_small (utf16 "2026-01-01T00:00:00.000Z"))
  = 5%nat.
Proof.
  destruct (index_of_build Examples.dir_small Examples.built_small
              (utf16 "2026-01-01T00:00:00.000Z")) as (Ht & _);
    [vm_compute; reflexivity|].
  rewrite Ht. vm_compute. reflexivity.
Defined.

(** ** Ties keep the order of the array *)

Section ArraySortStable.
Context {A : Type} (comparefn : A -> A -> option Z).

(** Elements with a property [P] keep their order when the comparator is
    never positive between two of them. *)
Section Property.
Context (P : A -> Prop) `{!forall x, Decision (P x)}.

Lemma sortInsert_filter_stable x l :
  (forall y, y ∈ l -> P x -> P y ->
     (0 <? sortCompare comparefn x y)%Z = false) ->
  filter P (sortInsert comparefn x l) = filter P (x :: l).
Proof.
  induction l as [|y l IH]; intros Hc; [reflexivity|]. cbn [sortInsert].
  destruct (0 <? sortCompare comparefn x y)%Z eqn:Hlt; [|done].
  rewrite filter_cons, IH by (intros z Hz; apply Hc; by right).
  rewrite !filter_cons.
  destruct (decide (P y)) as [Hy|Hy], (decide (P x)) as [Hx|Hx]; try done.
  rewrite (Hc y) in Hlt by (done || left). discriminate.
Qed.

Lemma Array_sort_filter_stable l :
  (forall x y, x ∈ l -> y ∈ l -> P x -> P y ->
     (0 <? sortCompare comparefn x y)%Z = false) ->
  filter P (Array_sort comparefn l) = filter P l.
Proof.
  induction l as [|x l IH]; intros Hc; [done|].
  change (Array_sort comparefn (x :: l))
    with (sortInsert comparefn x (Array_sort comparefn l)).
  rewrite sortInsert_filter_stable.
  - rewrite !filter_cons, IH; [done|]. intros a b Ha Hb. apply Hc; by right.
  - intros y Hy%Array_sort_elem_of. apply Hc; [left | by right].
Qed.

End Property.

(** In particular the elements with one key, when the comparator is the
    difference of the keys. *)
Lemma Array_sort_filter_key (key : A -> Z) l k :
  (forall x y, x ∈ l -> y ∈ l -> comparefn x y = Some (key x - key y)%Z) ->
  filter (fun z => key z = k) (Array_sort comparefn l)
  = filter (fun z => key z = k) l.
Proof.
  intros Hc. apply (Array_sort_filter_stable (fun z => key z = k)).
  intros x y Hx Hy Hkx Hky. unfold sortCompare. rewrite (Hc x y Hx Hy).
  change (default 0%Z (Some (key x - key y)%Z)) with (key x - key y)%Z.
  apply Z.ltb_ge. lia.
Qed.

End ArraySortStable.

Lemma filter_take_prefix {A} (P : A -> Prop) `{!forall x, Decision (P x)} n (l : list A) :
  filter P (take n l) `prefix_of` filter P l.
Proof.
  rewrite <- (take_drop n l) at 2. rewrite filter_app. by apply prefix_app_r.
Qed.

Lemma filter_ext_in {A} (P Q : A -> Prop) `{!forall x, Decision (P x)}
    `{!forall x, Decision (Q x)} (l : list A) :
  (forall x, x ∈ l -> P x <-> Q x) -> filter P l = filter Q l.
Proof.
  intros Hext. induction l as [|x l IH]; [done|].
  rewrite !filter_cons, IH by (intros y Hy; apply Hext; by right).
  assert (P x <-> Q x) as Hx by (apply Hext; left).
  destruct (decide (P x)) as [Hp|Hp], (decide (Q x)) as [Hq|Hq];
    try done; tauto.
Qed.

Lemma candidate_None current th ep :
  candidate current th ep = None ->
  Episode.id ep = Episode.id current
  \/ (th <=? calculateSimilarity current ep)%float = false.
Proof.
  unfold candidate. case_bool_decide; [by left|].
  destruct (th <=? _)%float; [done | by right].
Qed.

Lemma candidates_with_percentage current th k (all : list Episode.t) :
  filter (fun r => Related.similarity r = k) (omap (candidate current th) all)
  = (fun ep => Related.mk (Episode.id ep) (Episode.title ep) k)
      <$> filter (qualifies current th k) all.
Proof.
  induction all as [|ep all IH]; [done|].
  cbn [omap list_omap]. rewrite (filter_cons (qualifies current th k)).
  destruct (candidate current th ep) as [r|] eqn:Hc.
  - apply candidate_Some in Hc as (Hne & Hth & ->).
    rewrite filter_cons, IH. cbn [Related.similarity].
    destruct (decide (Math_round _ = k)) as [Hk|Hk],
             (decide (qualifies current th k ep)) as [Hq|Hq].
    + rewrite fmap_cons. by rewrite Hk.
    + exfalso. by apply Hq.
    + exfalso. by destruct Hq as (_ & _ & ?).
    + done.
  - rewrite IH. destruct (decide (qualifies current th k ep)) as [Hq|Hq]; [|done].
    exfalso. destruct Hq as (Hne & Hth & _).
    apply candidate_None in Hc as [?|Hf]; [done | congruence].
Qed.

(** X16: among the related entries with one percentage, the order is the
    order of their episodes in the array given to [findRelatedEpisodes] (the
    sort is stable): they are a prefix of the entries of the episodes that
    qualify with this percentage, in array order. *)
Theorem related_ties_in_array_order current (all : list Episode.t) th k :
  filter (fun r => Related.similarity r = k) (findRelatedEpisodes current all th)
  `prefix_of`
  (fun ep => Related.mk (Episode.id ep) (Episode.title ep) k)
    <$> filter (qualifies current th k) all.
Proof.
  rewrite findRelatedEpisodes_spec, <- candidates_with_percentage.
  etrans; [apply filter_take_prefix|].
  rewrite (filter_ext_in _ (fun r => (- Related.similarity r)%Z = (- k)%Z))
    by (intros r _; lia).
  rewrite (Array_sort_filter_key bySimilarity (fun r => (- Related.similarity r)%Z)).
  - rewrite (filter_ext_in _ (fun r => Related.similarity r = k)); [done|].
    intros r _. lia.
  - intros x y _ _. unfold bySimilarity. f_equal. lia.
Qed.

Lemma extracted_filenames dir :
  Episode.filename <$> extracted dir
  = filter (fun n => is_Some (extractEpisodeId n)) dir.*1.
Proof.
  induction dir as [|f dir IH]; [done|].
  rewrite extracted_cons, fmap_app, IH, fmap_cons, filter_cons.
  destruct (extractEpisodeId f.1) as [id|] eqn:Hid.
  - rewrite decide_True by eauto. done.
  - rewrite decide_False by (by intros [? ?]). done.
Qed.

Lemma extracted_id dir e :
  e ∈ extracted dir -> extractEpisodeId (Episode.filename e) = Some (Episode.id e).
Proof.
  intros (f & id & _ & Hid & ->)%extracted_elem.
  by cbn [recordOf Episode.filename Episode.id].
Qed.

Lemma filter_fmap_comm {A B} (f : A -> B) (P : B -> Prop)
    `{!forall y, Decision (P y)} (l : list A) :
  filter P (f <$> l) = f <$> filter (fun x => P (f x)) l.
Proof.
  induction l as [|x l IH]; [done|].
  rewrite fmap_cons, !filter_cons, IH. by destruct (decide (P (f x))).
Qed.

(** The sort passes no record over a record with the same key. *)
Lemma compareEpisodes_same_key k a b :
  hasKey k (Episode.id a) = true -> hasKey k (Episode.id b) = true ->
  (0 <? sortCompare compareEpisodes a b)%Z = false.
Proof.
  unfold hasKey. intros Ha%FloatAxioms.Leibniz.eqb_spec
                        Hb%FloatAxioms.Leibniz.eqb_spec.
  unfold sortCompare, compareEpisodes, numberSign. rewrite Ha, Hb.
  rewrite sub_diag_not_positive. by destruct (k - k <? 0)%float.
Qed.

(** X17: records whose ids have the same sort key, that is the same double
    out of [getOrder], are output in the order of the directory: the file
    names of the records with the key [k] are the accepted names with this
    key, in directory order. *)
Theorem display_ties_in_directory_order dir eps k :
  processAllFiles dir = Ok eps ->
  Episode.filename <$> filter (fun e => hasKey k (Episode.id e)) eps
  = filter (fun n => fileHasKey k n) dir.*1.
Proof.
  rewrite processAllFiles_spec. intros [= <-].
  rewrite (Array_sort_filter_stable compareEpisodes
             (fun e => hasKey k (Episode.id e))).
  2:{ intros x y _ _ Hx Hy.
      by apply (compareEpisodes_same_key k); apply Is_true_true. }
  pose proof (filter_fmap_comm (relate (extracted dir))
                (fun e => hasKey k (Episode.id e)) (extracted dir)) as E.
  cbn beta in E. rewrite E. clear E. rewrite <- list_fmap_compose.
  change (Episode.filename ∘ relate (extracted dir)) with Episode.filename.
  rewrite (filter_ext_in _ (fun e => fileHasKey k (Episode.filename e))).
  2:{ intros e He. cbn [relate Episode.with_related Episode.id].
      unfold fileHasKey. by rewrite (extracted_id dir e He). }
  pose proof (filter_fmap_comm Episode.filename
                (fun n => fileHasKey k n) (extracted dir)) as E.
  cbn beta in E. rewrite <- E. clear E.
  rewrite extracted_filenames, list_filter_filter.
  apply filter_ext_in. intros n _. split; [by intros [? _]|].
  intros Hk. split; [done|]. unfold fileHasKey in Hk.
  destruct (extractEpisodeId n); [eauto | done].
Qed.

(** The names 3.md and 2-10.md both have the key 30 and keep their order,
    although 2-10.md was read after 3.md and before 1.md; so do two names
    whose keys round to the same double. *)
Lemma display_ties_in_directory_order_witness :
  (exists eps,
     processAllFiles Examples.dir_ties = Ok eps
     /\ Episode.filename <$> filter (fun e => hasKey 30 (Episode.id e)) eps
        = filter (fun n => fileHasKey 30 n) Examples.dir_ties.*1
     /\ filter (fun n => fileHasKey 30 n) Examples.dir_ties.*1
        = [utf16 "3.md"; utf16 "2-10.md"])
  /\ (exists eps,
        processAllFiles Examples.dir_beyond_safe = Ok eps
        /\ Episode.filename
             <$> filter (fun e => hasKey 9007199254740992 (Episode.id e)) eps
           = [utf16 "900719925474099-03.md"; utf16 "900719925474099-2.md"]).
Proof.
  split.
  - eexists. split; [vm_compute; reflexivity|]. split.
    + apply display_ties_in_directory_order. vm_compute; reflexivity.
    + vm_compute; reflexivity.
  - eexists. split; [vm_compute; reflexivity|].
    etrans; [apply (display_ties_in_directory_order Examples.dir_beyond_safe);
             vm_compute; reflexivity|].
    vm_compute; reflexivity.
Defined.

(** ** Relatedness is mutual up to the cut *)

Lemma calculateSimilarity_comm a b :
  calculateSimilarity a b = calculateSimilarity b a.
Proof.
  rewrite !calculateSimilarity_score. unfold score.
  by rewrite (dice_comm (keywordSet a)), (dice_comm (themeSet a)).
Qed.

(** X18: relatedness is mutual up to the cut at five: when a record [a] of
    a built corpus lists an episode with some percentage, the record [b] of
    that episode lists [a] with the same percentage, unless the list of [b]
    is full and none of its five entries has a lower percentage. *)
Theorem related_mutual_up_to_cut dir eps a r :
  processAllFiles dir = Ok eps -> a ∈ eps -> r ∈ Episode.relatedEpisodes a ->
  exists b,
    b ∈ eps
    /\ Episode.id b = Related.id r
    /\ (Related.mk (Episode.id a) (Episode.title a) (Related.similarity r)
          ∈ Episode.relatedEpisodes b
        \/ (length (Episode.relatedEpisodes b) = 5%nat
            /\ Forall (fun r' =>
                        (Related.similarity r <= Related.similarity r')%Z)
                      (Episode.relatedEpisodes b))).
Proof.
  intros Hb Ha Hr. destruct (built_elem _ _ _ Hb Ha) as (a0 & Ha0 & ->).
  cbn [relate Episode.with_related Episode.relatedEpisodes Episode.id
       Episode.title] in *.
  apply findRelatedEpisodes_elem in Hr as (b0 & Hb0 & Hc).
  apply candidate_Some in Hc as (Hne & Hth & ->).
  exists (relate (extracted dir) b0). split; [by apply (built_relate_elem dir)|].
  cbn [relate Episode.with_related Episode.relatedEpisodes Episode.id
       Related.id Related.similarity].
  split; [done|].
  rewrite (calculateSimilarity_comm a0 b0) in Hth |- *.
  apply findRelatedEpisodes_keeps; [done | congruence | done].
Qed.

(** In the corpus of the twins each record lists the other with 100. *)
Lemma related_mutual_up_to_cut_witness :
  exists a b,
    Examples.built_twins = [a; b]
    /\ Related.mk (Episode.id b) (Episode.title b) 100 ∈ Episode.relatedEpisodes a
    /\ Related.mk (Episode.id a) (Episode.title a) 100 ∈ Episode.relatedEpisodes b.
Proof.
  assert (exists a b, Examples.built_twins = [a; b]) as (a & b & E)
    by (vm_compute; eauto).
  exists a, b. split; [exact E|].
  assert (Hr : Related.mk (Episode.id b) (Episode.title b) 100
               ∈ Episode.relatedEpisodes a).
  { vm_compute in E. injection E as <- <-. vm_compute. left. }
  split; [exact Hr|].
  destruct (related_mutual_up_to_cut Examples.dir_twins Examples.built_twins a _
              ltac:(vm_compute; reflexivity) ltac:(rewrite E; left) Hr)
    as (b' & Hb' & Hid & [Hin|[Hlen _]]).
  - cbn [Related.id Related.similarity] in *.
    assert (b' = b) as ->; [|exact Hin].
    rewrite E in Hb'. vm_compute in E. injection E as <- <-.
    apply elem_of_cons in Hb' as [->|Hb']; [vm_compute in Hid; discriminate|].
    by apply list_elem_of_singleton in Hb'.
  - exfalso. rewrite E in Hb'. vm_compute in E. injection E as <- <-.
    apply elem_of_cons in Hb' as [->|Hb']; [vm_compute in Hlen; discriminate|].
    apply list_elem_of_singleton in Hb' as ->. vm_compute in Hlen. discriminate.
Defined.
